(** * Porous DBR simulator: the grading and stack-assembly core of TMM_Class.py

    A shallow embedding of [porosity_to_n], [DBR.__init__], [DBR.MakeGrades],
    [DBR.Simulate] and [DBR.SimulateParts].

    Numbers.  Python and numpy floats are modelled by [xreal]: the real
    numbers extended with [+inf], [-inf] and [nan], with the IEEE rules for
    the special values (numpy does not raise on a float division by zero, it
    yields [inf] or [nan]).  Rounding, overflow and the sign of zero are not
    modelled: a finite result is the exact real result.  The statements
    proved on this model are those that do not depend on rounding; where
    rounding decides, module [F64] evaluates the same arithmetic in IEEE
    binary64, the doubles of Python and numpy.

    Exceptions are modelled by their Python class ([exn]); a call that
    raises returns [inl] of the class, a call that returns normally returns
    [inr] of its result. *)

From Stdlib Require Import Floats.
From Stdlib Require Import String.
From Stdlib Require Import Reals Lra Lia ZArith Bool List.
Import ListNotations.

(* A decimal float literal denotes the nearest double, as it does in
   Python. *)
Set Warnings "-inexact-float".

Local Open Scope R_scope.

(** ** Extended reals *)

Inductive xreal : Type :=
| Fin (r : R)
| PInf
| NInf
| NaN.

(** The sign of a real number, used by the rules for the special values. *)
Inductive sign : Type := Neg | Zero | Pos.

Definition Rsign (r : R) : sign :=
  if Req_dec_T r 0 then Zero
  else if Rlt_dec 0 r then Pos else Neg.

Definition xinf_of (s : sign) : xreal :=
  match s with Pos => PInf | Neg => NInf | Zero => NaN end.

Definition sign_opp (s : sign) : sign :=
  match s with Pos => Neg | Neg => Pos | Zero => Zero end.

Definition xopp (x : xreal) : xreal :=
  match x with
  | Fin r => Fin (- r)
  | PInf => NInf
  | NInf => PInf
  | NaN => NaN
  end.

Definition xadd (x y : xreal) : xreal :=
  match x, y with
  | NaN, _ | _, NaN => NaN
  | Fin a, Fin b => Fin (a + b)
  | PInf, NInf | NInf, PInf => NaN
  | PInf, _ | _, PInf => PInf
  | NInf, _ | _, NInf => NInf
  end.

Definition xsub (x y : xreal) : xreal := xadd x (xopp y).

Definition xmul (x y : xreal) : xreal :=
  match x, y with
  | NaN, _ | _, NaN => NaN
  | Fin a, Fin b => Fin (a * b)
  | Fin a, PInf | PInf, Fin a => xinf_of (Rsign a)
  | Fin a, NInf | NInf, Fin a => xinf_of (sign_opp (Rsign a))
  | PInf, PInf | NInf, NInf => PInf
  | PInf, NInf | NInf, PInf => NInf
  end.

(** numpy's true division: [x/0] is [inf], [-inf] or [nan] (with a warning,
    not an exception); a finite value over an infinity is [0]. *)
Definition xdiv (x y : xreal) : xreal :=
  match x, y with
  | NaN, _ | _, NaN => NaN
  | Fin a, Fin b =>
      match Rsign b with
      | Zero => xinf_of (Rsign a)
      | _ => Fin (a / b)
      end
  | Fin _, PInf | Fin _, NInf => Fin 0
  | PInf, Fin b =>
      match Rsign b with Neg => NInf | _ => PInf end
  | NInf, Fin b =>
      match Rsign b with Neg => PInf | _ => NInf end
  | _, _ => NaN
  end.

(** [np.sqrt]: [nan] on a negative argument. *)
Definition xsqrt (x : xreal) : xreal :=
  match x with
  | Fin r => match Rsign r with Neg => NaN | _ => Fin (sqrt r) end
  | PInf => PInf
  | NInf => NaN
  | NaN => NaN
  end.

(** [x < y] on floats: false as soon as a [nan] is involved. *)
Definition xltb (x y : xreal) : bool :=
  match x, y with
  | NaN, _ | _, NaN => false
  | Fin a, Fin b => if Rlt_dec a b then true else false
  | Fin _, PInf | NInf, Fin _ | NInf, PInf => true
  | _, _ => false
  end.

(** Python's [==] on floats: a [nan] is equal to nothing. *)
Definition py_eq (x y : xreal) : Prop := x = y /\ x <> NaN.

Definition xofZ (z : Z) : xreal := Fin (IZR z).

(** [np.sum] of a one-dimensional array. *)
Definition xsum (l : list xreal) : xreal := fold_left xadd l (Fin 0).

(** Arithmetic mean, [np.sum(l)/len(l)]. *)
Definition average (l : list xreal) : xreal :=
  xdiv (xsum l) (xofZ (Z.of_nat (length l))).

(** ** Exceptions *)

Inductive exn : Type :=
| ValueError
| AttributeError
| IndexError
| OverflowError.

Definition result (A : Type) : Type := (exn + A)%type.

Definition ret {A} (a : A) : result A := inr a.
Definition raise {A} (e : exn) : result A := inl e.

Definition bind {A B} (m : result A) (k : A -> result B) : result B :=
  match m with
  | inl e => inl e
  | inr a => k a
  end.

Notation "x <- m ;; k" := (bind m (fun x => k))
  (at level 61, m at next level, right associativity).

Fixpoint mapM {A B} (f : A -> result B) (l : list A) : result (list B) :=
  match l with
  | [] => ret []
  | a :: l' => b <- f a ;; bs <- mapM f l' ;; ret (b :: bs)
  end.

Definition getattr {A} (a : option A) : result A :=
  match a with
  | Some v => ret v
  | None => raise AttributeError
  end.

(** ** Python and numpy primitives used by the class *)

(** A Python list times an int: [l * k] is empty for [k <= 0]. *)
Definition list_mul {A} (l : list A) (k : Z) : list A :=
  concat (repeat l (Z.to_nat k)).

(** Python's built-in [min] over a sequence: keeps its first item and
    replaces it whenever a later item is smaller; [ValueError] when empty. *)
Definition py_min2 (a b : xreal) : xreal := if xltb b a then b else a.

Definition py_min (l : list xreal) : result xreal :=
  match l with
  | [] => raise ValueError
  | x :: l' => ret (fold_left py_min2 l' x)
  end.

(** [l[-1]] *)
Definition py_last (l : list xreal) : result xreal :=
  match l with
  | [] => raise IndexError
  | x :: l' => ret (last l' x)
  end.

(** [int(x)] on a float truncates toward zero; it raises on [inf]
    ([OverflowError]) and on [nan] ([ValueError]). *)
Definition Rtrunc (r : R) : Z :=
  if Rle_dec 0 r then Int_part r else (- Int_part (- r))%Z.

Definition py_int (x : xreal) : result Z :=
  match x with
  | Fin r => ret (Rtrunc r)
  | PInf | NInf => raise OverflowError
  | NaN => raise ValueError
  end.

(** [arange(0, n)] as a list of integers. *)
Definition arange (n : Z) : list Z := map Z.of_nat (seq 0 (Z.to_nat n)).

(** [np.linspace(start, stop, num)] with the default [endpoint=True]:
    [num] samples [i*step + start] with [step = (stop-start)/(num-1)], the
    last one overwritten by [stop]; [ValueError] for a negative [num].
    (numpy computes [i/div*delta] instead of [i*step] when the step is zero;
    without rounding the two agree.) *)
Definition linspace (start stop : xreal) (num : Z) : result (list xreal) :=
  if (num <? 0)%Z then raise ValueError
  else
    let div := (num - 1)%Z in
    let delta := xsub stop start in
    let y :=
      if (0 <? div)%Z
      then map (fun i => xadd (xmul (xofZ i) (xdiv delta (xofZ div))) start)
               (arange num)
      else map (fun i => xadd (xmul (xofZ i) delta) start) (arange num) in
    if (1 <? num)%Z then ret (removelast y ++ [stop]) else ret y.

(** [np.fromfunction(f, (1, n), dtype=int)] flattened: [f] at the column
    indices [0 .. n-1]; a negative dimension is a [ValueError]. *)
Definition fromfunction (f : Z -> result xreal) (n : Z) : result (list xreal) :=
  if (n <? 0)%Z then raise ValueError else mapM f (arange n).

(** The exponent [Order] is a Python int or a (finite) Python float; the
    factor is a float. *)
Inductive exponent : Type :=
| IntOrder (k : Z)
| FloatOrder (y : R).

(** C [pow] on a float exponent, for the integer bases this program uses
    (they are never negative): [0**0 = 1], [0**y = 0] for [y > 0] and
    [0**y = inf] for [y < 0]. *)
Definition float_pow (j : Z) (y : R) : xreal :=
  match j with
  | Z0 => match Rsign y with Zero => Fin 1 | Pos => Fin 0 | Neg => PInf end
  | Zpos _ => Fin (Rpower (IZR j) y)
  | Zneg _ => NaN
  end.

(** Signed 64-bit wrap-around, the arithmetic of an array of [dtype=int]. *)
Definition wrap64 (z : Z) : Z := ((z + 2 ^ 63) mod 2 ^ 64 - 2 ^ 63)%Z.

(** [j**Order] for an integer array [j]: numpy refuses a negative integer
    exponent on integers ([ValueError]) and computes the other integer
    powers in 64-bit integers; with a float exponent the result is a
    float. *)
Definition power (j : Z) (Order : exponent) : result xreal :=
  match Order with
  | IntOrder k =>
      if (k <? 0)%Z then raise ValueError else ret (xofZ (wrap64 (j ^ k)))
  | FloatOrder y => ret (float_pow j y)
  end.

(** ** porosity_to_n *)

(** [np.sqrt((1-porosity)*GaN_n*GaN_n + porosity*air_n*air_n)] *)
Definition porosity_to_n (porosity GaN_n air_n : xreal) : xreal :=
  xsqrt (xadd (xmul (xmul (xsub (Fin 1) porosity) GaN_n) GaN_n)
              (xmul (xmul porosity air_n) air_n)).

(** ** The DBR class *)

(** The attributes of a [DBR] object.  Those that [__init__] does not set
    are [None] until the method that assigns them has run: reading one
    before is an [AttributeError]. *)
Record DBR : Type := mkDBR {
  path : string;
  label : string;
  Period : xreal;
  T_Rat : xreal;
  T_Por : xreal;
  T_GaN : xreal;
  Phi : xreal;
  NLayers : Z;
  T_Temp : xreal;
  nPor : list (list xreal);
  Por_Graded : option (list xreal);
  T_Graded : option (list xreal);
  Wav : option (list xreal);
  d_list : option (list xreal);
  n_list : option (list xreal);
  Rnorm : option (list xreal);
  n_File : option string
}.

Definition DBR_init (label path : string) (Period T_Rat Phi : xreal)
    (NLayers : Z) (T_Temp : xreal) : DBR :=
  let T_Por := xmul T_Rat Period in
  {| path := path; label := label; Period := Period; T_Rat := T_Rat;
     T_Por := T_Por; T_GaN := xsub Period T_Por; Phi := Phi;
     NLayers := NLayers; T_Temp := T_Temp; nPor := [];
     Por_Graded := None; T_Graded := None; Wav := None; d_list := None;
     n_list := None; Rnorm := None; n_File := None |}.

Definition set_grades (self : DBR) (pg tg : list xreal) : DBR :=
  {| path := path self; label := label self; Period := Period self;
     T_Rat := T_Rat self; T_Por := T_Por self; T_GaN := T_GaN self;
     Phi := Phi self; NLayers := NLayers self; T_Temp := T_Temp self;
     nPor := nPor self;
     Por_Graded := Some pg; T_Graded := Some tg;
     Wav := Wav self; d_list := d_list self; n_list := n_list self;
     Rnorm := Rnorm self; n_File := n_File self |}.

(** The raw shape values [Por_Grad] of [MakeGrades] (lines 48-53). *)
Definition Por_Grad (NGrades : Z) (Factor : xreal) (Order : exponent)
    : result (list xreal) :=
  let halfN := ((NGrades + 1) ÷ 2)%Z in
  Por_Grad1 <- fromfunction
    (fun j => p <- power j Order ;; ret (xadd (Fin 1) (xmul Factor p)))
    halfN ;;
  Por_Grad2 <- fromfunction
    (fun j => p <- power (halfN - j - 2)%Z Order ;;
              ret (xadd (Fin 1) (xmul Factor p)))
    (halfN - 1)%Z ;;
  ret (Por_Grad1 ++ Por_Grad2).

(** [MakeGrades(self, NGrades, Factor, Order, Phi)].  The argument [Phi] is
    not read: the normalisation uses [self.Phi]. *)
Definition MakeGrades (self : DBR) (NGrades : Z) (Factor : xreal)
    (Order : exponent) (Phi_arg : xreal) : result DBR :=
  if (NGrades mod 2 =? 0)%Z then raise ValueError
  else
    raw <- Por_Grad NGrades Factor Order ;;
    let a := xdiv (xsum raw) (xmul (xofZ NGrades) (Phi self)) in
    let Por_Graded := map (fun x => xdiv x a) raw in
    let T_Grade := xdiv (T_Por self) (xofZ NGrades) in
    let T_Graded := repeat T_Grade (Z.to_nat NGrades) in
    ret (set_grades self Por_Graded T_Graded).

Definition set_sim (self : DBR) (file : option string) (wav d : list xreal)
    (nl : option (list xreal)) (rn : list xreal) (np : list (list xreal))
    : DBR :=
  {| path := path self; label := label self; Period := Period self;
     T_Rat := T_Rat self; T_Por := T_Por self; T_GaN := T_GaN self;
     Phi := Phi self; NLayers := NLayers self; T_Temp := T_Temp self;
     nPor := np;
     Por_Graded := Por_Graded self; T_Graded := T_Graded self;
     Wav := Some wav; d_list := Some d; n_list := nl;
     Rnorm := Some rn; n_File := file |}.

Definition set_nPor (self : DBR) (np : list (list xreal)) : DBR :=
  {| path := path self; label := label self; Period := Period self;
     T_Rat := T_Rat self; T_Por := T_Por self; T_GaN := T_GaN self;
     Phi := Phi self; NLayers := NLayers self; T_Temp := T_Temp self;
     nPor := np;
     Por_Graded := Por_Graded self; T_Graded := T_Graded self;
     Wav := Wav self; d_list := d_list self; n_list := n_list self;
     Rnorm := Rnorm self; n_File := n_File self |}.

(** *** Stack assembly

    [Simulate] and [SimulateParts] build the thickness list and the index
    list with the same statements in their two branches; each is written
    once here. *)

(** Lines 77-78 and 111-112. *)
Definition make_d_list (self : DBR) : result (list xreal) :=
  tg <- getattr (T_Graded self) ;;
  let Repeat := [T_GaN self] ++ tg in
  ret ([PInf] ++ list_mul Repeat (NLayers self) ++ [T_Temp self] ++ [PInf]).

(** Lines 85-88 and 122-126: the graded indices [n_Por] and the index list. *)
Definition make_n_list (self : DBR) (n n_Space n_Sub : xreal)
    : result (list xreal * list xreal) :=
  pg <- getattr (Por_Graded self) ;;
  let n_Por := map (fun p => porosity_to_n p n n_Space) pg in
  let Repeat := [n] ++ n_Por in
  ret (n_Por, [Fin 1] ++ list_mul Repeat (NLayers self) ++ [n] ++ [n_Sub]).

(** Lines 152-154 and 189-191. *)
Definition make_d_list_parts (self TopDBR : DBR) : result (list xreal) :=
  tg <- getattr (T_Graded self) ;;
  let Repeat := [T_GaN self] ++ tg in
  tgTop <- getattr (T_Graded TopDBR) ;;
  let RepeatTop := [T_GaN TopDBR] ++ tgTop in
  ret ([PInf] ++ list_mul RepeatTop (NLayers TopDBR)
         ++ list_mul Repeat (NLayers self) ++ [T_Temp self] ++ [PInf]).

(** Lines 161-166 and 201-208: [n_Por], [n_PorTop] and the index list. *)
Definition make_n_list_parts (self TopDBR : DBR) (n n_Space n_Sub : xreal)
    : result (list xreal * list xreal * list xreal) :=
  pg <- getattr (Por_Graded self) ;;
  let n_Por := map (fun p => porosity_to_n p n n_Space) pg in
  pgTop <- getattr (Por_Graded TopDBR) ;;
  let n_PorTop := map (fun p => porosity_to_n p n n_Space) pgTop in
  let Repeat := [n] ++ n_Por in
  let RepeatTop := [n] ++ n_PorTop in
  ret (n_Por, n_PorTop,
       [Fin 1] ++ list_mul RepeatTop (NLayers TopDBR)
         ++ list_mul Repeat (NLayers self) ++ [n] ++ [n_Sub]).

(** Lines 103 and 181: the wavelength column of the table, converted from
    micrometres to nanometres. *)
Definition to_nm (Wav_um : list xreal) : list xreal :=
  map (fun w => xmul w (Fin 1000)) Wav_um.

(** Lines 108 and 186: the wavelength grid of the dispersion-table branch,
    [linspace(min(Wav), min(1000, Wav[-1]), num=int(1000 - min(Wav)))]. *)
Definition table_grid (Wav : list xreal) : result (list xreal) :=
  start <- py_min Wav ;;
  lastw <- py_last Wav ;;
  let stop := py_min2 (Fin 1000) lastw in
  m <- py_min Wav ;;
  num <- py_int (xsub (Fin 1000) m) ;;
  linspace start stop num.

Inductive polarization : Type := s_pol | p_pol.

Section Simulation.

(** The external collaborators: the transfer-matrix solver (its ['R']
    entry), the CSV reader and scipy's interpolation constructor. *)
Variable coh_tmm :
  polarization -> list xreal -> list xreal -> xreal -> xreal -> result xreal.
Variable loadtxt : string -> result (list (xreal * xreal)).
Variable interp1d :
  list xreal -> list xreal -> result (xreal -> result xreal).

(** The solver loop of the constant-index branch (lines 90-93, 168-171). *)
Definition const_loop (nl d wav : list xreal) : result (list xreal) :=
  mapM (fun Lambda => coh_tmm s_pol nl d (Fin 0) Lambda) wav.

(** The per-wavelength loop of [Simulate] (lines 119-130); the state is
    [self.nPor], [self.n_list] and [self.Rnorm]. *)
Fixpoint table_loop (self : DBR) (n_func : xreal -> result xreal)
    (n_Space n_Sub : xreal) (d : list xreal) (wav : list xreal)
    (st : list (list xreal) * option (list xreal) * list xreal)
    : result (list (list xreal) * option (list xreal) * list xreal) :=
  match wav with
  | [] => ret st
  | Lambda :: wav' =>
      let '(np, _, rn) := st in
      n <- n_func Lambda ;;
      pn <- make_n_list self n n_Space n_Sub ;;
      let '(n_Por, nl) := pn in
      r <- coh_tmm s_pol nl d (Fin 0) Lambda ;;
      table_loop self n_func n_Space n_Sub d wav'
                 (np ++ [n_Por], Some nl, rn ++ [r])
  end.

(** [Simulate(self, n_Sub, n_Space, n_File, n)]; [n_File] is [None] for
    the Python value [False]. *)
Definition Simulate (self : DBR) (n_Sub n_Space : xreal)
    (file : option string) (n : xreal) : result DBR :=
  match file with
  | None =>
      wav <- linspace (Fin 200) (Fin 1000) 800 ;;
      d <- make_d_list self ;;
      pn <- make_n_list self n n_Space n_Sub ;;
      let '(_, nl) := pn in
      rn <- const_loop nl d wav ;;
      ret (set_sim self (n_File self) wav d (Some nl) rn (nPor self))
  | Some f =>
      data <- loadtxt (f ++ ".csv")%string ;;
      let n_GaN := map snd data in
      let Wav_nm := to_nm (map fst data) in
      n_func <- interp1d Wav_nm n_GaN ;;
      wav <- table_grid Wav_nm ;;
      d <- make_d_list self ;;
      st <- table_loop self n_func n_Space n_Sub d wav
              (nPor self, n_list self, []) ;;
      let '(np, nl, rn) := st in
      ret (set_sim self (Some f) wav d nl rn np)
  end.

(** The per-wavelength loop of [SimulateParts] (lines 198-212); the state
    also carries [TopDBR.nPor]. *)
Fixpoint table_loop_parts (self TopDBR : DBR)
    (n_func : xreal -> result xreal)
    (n_Space n_Sub : xreal) (d : list xreal) (wav : list xreal)
    (st : list (list xreal) * list (list xreal)
          * option (list xreal) * list xreal)
    : result (list (list xreal) * list (list xreal)
              * option (list xreal) * list xreal) :=
  match wav with
  | [] => ret st
  | Lambda :: wav' =>
      let '(np, npTop, _, rn) := st in
      n <- n_func Lambda ;;
      pn <- make_n_list_parts self TopDBR n n_Space n_Sub ;;
      let '(n_Por, n_PorTop, nl) := pn in
      r <- coh_tmm s_pol nl d (Fin 0) Lambda ;;
      table_loop_parts self TopDBR n_func n_Space n_Sub d wav'
                 (np ++ [n_Por], npTop ++ [n_PorTop], Some nl, rn ++ [r])
  end.

(** [SimulateParts(self, n_Sub, n_Space, n_File, TopDBR, n)]: the new
    states of [self] and of [TopDBR] (two distinct objects). *)
Definition SimulateParts (self : DBR) (n_Sub n_Space : xreal)
    (file : option string) (TopDBR : DBR) (n : xreal)
    : result (DBR * DBR) :=
  match file with
  | None =>
      wav <- linspace (Fin 200) (Fin 1000) 800 ;;
      d <- make_d_list_parts self TopDBR ;;
      pn <- make_n_list_parts self TopDBR n n_Space n_Sub ;;
      let '(_, _, nl) := pn in
      rn <- const_loop nl d wav ;;
      ret (set_sim self (n_File self) wav d (Some nl) rn (nPor self),
           TopDBR)
  | Some f =>
      data <- loadtxt (f ++ ".csv")%string ;;
      let n_GaN := map snd data in
      let Wav_nm := to_nm (map fst data) in
      n_func <- interp1d Wav_nm n_GaN ;;
      wav <- table_grid Wav_nm ;;
      d <- make_d_list_parts self TopDBR ;;
      st <- table_loop_parts self TopDBR n_func n_Space n_Sub d wav
              (nPor self, nPor TopDBR, n_list self, []) ;;
      let '(np, npTop, nl, rn) := st in
      ret (set_sim self (Some f) wav d nl rn np, set_nPor TopDBR npTop)
  end.

End Simulation.

(** ** The arithmetic in binary64

    The numeric part of [porosity_to_n] and of [MakeGrades] once more, on
    primitive binary64 floats, which round, overflow and underflow as the
    doubles of the program do.  The exponent is a Python int here (C [pow],
    which numpy uses for a float exponent, has no counterpart in the
    library). *)

Module F64.

Local Open Scope float_scope.

(** An integer (a Python int or an int64 entry) converted to a double,
    rounded to nearest. *)
Definition of_int (z : Z) : float :=
  SF2Prim (binary_normalize prec emax z 0 false).

(** [np.sum] of an array of fewer than eight doubles, and Python's [sum]:
    the entries are added from left to right. *)
Definition np_sum (l : list float) : float := fold_left PrimFloat.add l 0.

(** Arithmetic mean, [np.sum(l)/len(l)]. *)
Definition average (l : list float) : float :=
  np_sum l / of_int (Z.of_nat (length l)).

(** [np.sqrt((1-porosity)*GaN_n*GaN_n + porosity*air_n*air_n)] *)
Definition porosity_to_n (porosity GaN_n air_n : float) : float :=
  PrimFloat.sqrt ((1 - porosity) * GaN_n * GaN_n + porosity * air_n * air_n).

(** [j**Order] on an integer array with an integer exponent. *)
Definition power (j Order : Z) : result float :=
  if (Order <? 0)%Z then raise ValueError
  else ret (of_int (wrap64 (j ^ Order))).

Definition fromfunction (f : Z -> result float) (n : Z)
    : result (list float) :=
  if (n <? 0)%Z then raise ValueError else mapM f (arange n).

(** [MakeGrades] on an object with the attributes [T_Por] and [Phi]: the
    new [Por_Graded] and [T_Graded]. *)
Definition MakeGrades (T_Por Phi : float) (NGrades : Z) (Factor : float)
    (Order : Z) : result (list float * list float) :=
  if (NGrades mod 2 =? 0)%Z then raise ValueError
  else
    let halfN := ((NGrades + 1) ÷ 2)%Z in
    Por_Grad1 <- fromfunction
      (fun j => p <- power j Order ;; ret (1 + Factor * p)) halfN ;;
    Por_Grad2 <- fromfunction
      (fun j => p <- power (halfN - j - 2)%Z Order ;; ret (1 + Factor * p))
      (halfN - 1)%Z ;;
    let Por_Grad := (Por_Grad1 ++ Por_Grad2)%list in
    let a := np_sum Por_Grad / (of_int NGrades * Phi) in
    let Por_Graded := map (fun x => x / a) Por_Grad in
    let T_Grade := T_Por / of_int NGrades in
    let T_Graded := repeat T_Grade (Z.to_nat NGrades) in
    ret (Por_Graded, T_Graded).

End F64.

(** ** Vocabulary of the statements *)

(** The sum of a list of reals, to state what [xsum] computes on finite
    values. *)
Definition Rsum (l : list R) : R := fold_right Rplus 0 l.

(** The exponents that [power] accepts: any float, and the integers that
    are not negative. *)
Definition valid_exponent (Order : exponent) : Prop :=
  match Order with
  | IntOrder k => (0 <= k)%Z
  | FloatOrder _ => True
  end.

(** The value of [j**Order] for such an exponent. *)
Definition pow_val (j : Z) (Order : exponent) : xreal :=
  match Order with
  | IntOrder k => xofZ (wrap64 (j ^ k))
  | FloatOrder y => float_pow j y
  end.

(** The raw shape value [1 + Factor*j**Order]. *)
Definition raw_val (Factor : xreal) (Order : exponent) (j : Z) : xreal :=
  xadd (Fin 1) (xmul Factor (pow_val j Order)).

(** The scale factor [a] of [MakeGrades] (line 56). *)
Definition scale_factor (self : DBR) (N : Z) (raw : list xreal) : xreal :=
  xdiv (xsum raw) (xmul (xofZ N) (Phi self)).

(** The object of the first end-to-end scenario of the specification and
    its variants, used to run the statements on concrete inputs. *)
Definition scenario (Phi : xreal) (NLayers : Z) (T_Temp : xreal) : DBR :=
  DBR_init "All_45" "Polarisation/" (Fin (973 / 10)) (Fin (345 / 1000))
           Phi NLayers T_Temp.

(** Stand-ins for the external collaborators, to run [Simulate] and
    [SimulateParts] on a concrete input: a solver that answers [1/2], a table
    of three rows and an interpolation that answers the first index. *)
Definition demo_coh_tmm (_ : polarization) (_ _ : list xreal) (_ _ : xreal)
    : result xreal := ret (Fin (1 / 2)).

Definition demo_table : list (xreal * xreal) :=
  [(Fin (3 / 10), Fin (26 / 10)); (Fin (5 / 10), Fin (24 / 10));
   (Fin (7 / 10), Fin (23 / 10))].

Definition demo_loadtxt (_ : string) : result (list (xreal * xreal)) :=
  ret demo_table.

Definition demo_interp1d (_ ys : list xreal)
    : result (xreal -> result xreal) :=
  match ys with
  | [] => raise ValueError
  | y :: _ => ret (fun _ => ret y)
  end.

(** The object after a call of [MakeGrades] with its own porosity as the
    argument (the object itself if the call raises). *)
Definition graded (self : DBR) (N : Z) (Factor : xreal) (Order : exponent)
    : DBR :=
  match MakeGrades self N Factor Order (Phi self) with
  | inr s => s
  | inl _ => self
  end.

(** The loop state of [SimulateParts] without [TopDBR.nPor]. *)
Definition drop_top {A B C D} (st : A * B * C * D) : A * C * D :=
  let '(a, _, c, d) := st in (a, c, d).

(** What a run leaves for plotting and export: the wavelengths, the two
    lists handed to the solver and the reflectances. *)
Definition observables (self : DBR)
    : option (list xreal) * option (list xreal) * option (list xreal)
      * option (list xreal) :=
  (Wav self, d_list self, n_list self, Rnorm self).

(** A solver that always raises, to run the error path. *)
Definition failing_coh_tmm (_ : polarization) (_ _ : list xreal)
    (_ _ : xreal) : result xreal := raise ValueError.

(** The part of a loop state that is visible after the run: the last index
    list and the reflectances. *)
Definition loop_out3 {A B C} (st : A * B * C) : B * C :=
  let '(_, b, c) := st in (b, c).

Definition loop_out4 {A B C D} (st : A * B * C * D) : C * D :=
  let '(_, _, c, d) := st in (c, d).

(** * Properties *)

(** ** Arithmetic on [xreal] *)

Lemma Rsign_Zero (r : R) : r = 0 -> Rsign r = Zero.
Proof.
  intros ->. unfold Rsign. destruct (Req_dec_T 0 0) as [_ | H]; [reflexivity | now elim H].
Qed.

Lemma Rsign_Pos (r : R) : 0 < r -> Rsign r = Pos.
Proof.
  intros H. unfold Rsign.
  destruct (Req_dec_T r 0) as [E | _]; [lra |].
  destruct (Rlt_dec 0 r); [reflexivity | contradiction].
Qed.

Lemma Rsign_Neg (r : R) : r < 0 -> Rsign r = Neg.
Proof.
  intros H. unfold Rsign.
  destruct (Req_dec_T r 0) as [E | _]; [lra |].
  destruct (Rlt_dec 0 r); [lra | reflexivity].
Qed.

Lemma Rsign_cases (r : R) :
  (r < 0 /\ Rsign r = Neg) \/ (r = 0 /\ Rsign r = Zero) \/ (0 < r /\ Rsign r = Pos).
Proof.
  destruct (Rtotal_order r 0) as [H | [H | H]].
  - left. split; [assumption | now apply Rsign_Neg].
  - right; left. split; [assumption | now apply Rsign_Zero].
  - right; right. split; [assumption | now apply Rsign_Pos].
Qed.

Lemma xdiv_Fin (a b : R) : b <> 0 -> xdiv (Fin a) (Fin b) = Fin (a / b).
Proof.
  intros Hb. unfold xdiv.
  destruct (Rsign_cases b) as [[_ ->] | [[E _] | [_ ->]]];
    [reflexivity | contradiction | reflexivity].
Qed.

Lemma xdiv_Fin_zero (a b : R) :
  b = 0 -> xdiv (Fin a) (Fin b) = xinf_of (Rsign a).
Proof. intros Hb. unfold xdiv. now rewrite (Rsign_Zero b Hb). Qed.


Lemma xltb_Fin_true (a b : R) : a < b -> xltb (Fin a) (Fin b) = true.
Proof. intros H. simpl. destruct (Rlt_dec a b); [reflexivity | contradiction]. Qed.

Lemma xltb_Fin_false (a b : R) : b <= a -> xltb (Fin a) (Fin b) = false.
Proof. intros H. simpl. destruct (Rlt_dec a b); [lra | reflexivity]. Qed.

Lemma fold_xadd_Fin (l : list R) (acc : R) :
  fold_left xadd (map Fin l) (Fin acc) = Fin (acc + Rsum l).
Proof.
  revert acc. induction l as [| r l IH]; intros acc; simpl.
  - f_equal. lra.
  - rewrite IH. f_equal. lra.
Qed.

Lemma xsum_Fin (l : list R) : xsum (map Fin l) = Fin (Rsum l).
Proof. unfold xsum. rewrite fold_xadd_Fin. f_equal. lra. Qed.

Lemma Rsum_ge_length (l : list R) :
  Forall (fun r => 1 <= r) l -> INR (length l) <= Rsum l.
Proof.
  induction 1 as [| r l Hr _ IH].
  - simpl. lra.
  - simpl length. rewrite S_INR. simpl Rsum. lra.
Qed.

(** ** porosity_to_n *)




(** ** The error monad *)

Lemma mapM_ret {A B} (g : A -> B) (l : list A) :
  mapM (fun a => ret (g a)) l = ret (map g l).
Proof.
  induction l as [| a l IH]; simpl; [reflexivity |].
  rewrite IH. reflexivity.
Qed.

Lemma mapM_ext {A B} (f g : A -> result B) (l : list A) :
  (forall a, f a = g a) -> mapM f l = mapM g l.
Proof.
  intros H. induction l as [| a l IH]; simpl; [reflexivity |].
  rewrite H, IH. reflexivity.
Qed.

Lemma mapM_raise {A B} (e : exn) (l : list A) :
  l <> [] -> mapM (fun _ : A => @raise B e) l = raise e.
Proof. destruct l as [| a l]; [congruence | reflexivity]. Qed.

Lemma mapM_length {A B} (f : A -> result B) (l : list A) (r : list B) :
  mapM f l = inr r -> length r = length l.
Proof.
  revert r. induction l as [| a l IH]; intros r; simpl.
  - intros [= <-]. reflexivity.
  - destruct (f a) as [e | b]; simpl; [discriminate |].
    destruct (mapM f l) as [e | bs]; simpl; [discriminate |].
    intros [= <-]. simpl. f_equal. now apply IH.
Qed.

(** ** MakeGrades *)

Lemma arange_length (n : Z) : length (arange n) = Z.to_nat n.
Proof. unfold arange. now rewrite length_map, length_seq. Qed.

Lemma arange_In (n j : Z) : In j (arange n) -> (0 <= j < n)%Z.
Proof.
  unfold arange. rewrite in_map_iff. intros [k [<- Hk]].
  apply in_seq in Hk. lia.
Qed.

Lemma power_valid (j : Z) (Order : exponent) :
  valid_exponent Order -> power j Order = ret (pow_val j Order).
Proof.
  destruct Order as [k | y]; simpl; [| reflexivity].
  intros Hk. destruct (Z.ltb_spec k 0); [lia | reflexivity].
Qed.

Lemma power_invalid (j : Z) (Order : exponent) :
  ~ valid_exponent Order -> power j Order = raise ValueError.
Proof.
  destruct Order as [k | y]; simpl; [| tauto].
  intros Hk. destruct (Z.ltb_spec k 0); [reflexivity | lia].
Qed.

Lemma valid_exponent_dec (Order : exponent) :
  valid_exponent Order \/ ~ valid_exponent Order.
Proof. destruct Order as [k | y]; simpl; [lia | tauto]. Qed.

Lemma halfN_odd (N : Z) :
  Z.odd N = true -> (1 <= N)%Z ->
  (1 <= (N + 1) ÷ 2)%Z /\ (2 * ((N + 1) ÷ 2) = N + 1)%Z.
Proof.
  intros Hodd HN.
  rewrite Z.quot_div_nonneg by lia.
  pose proof (Zmod_odd N) as Hm. rewrite Hodd in Hm.
  pose proof (Z.div_mod N 2 ltac:(lia)) as Hd.
  assert (E : ((N + 1) / 2 = N / 2 + 1)%Z).
  { replace (N + 1)%Z with (N / 2 * 2 + 2)%Z by lia.
    rewrite Z.div_add_l by lia. reflexivity. }
  lia.
Qed.

(** What [Por_Grad] returns when the exponent is usable: the first half
    rises from column [0], the second half falls back to it. *)
Lemma Por_Grad_valid (N : Z) (Factor : xreal) (Order : exponent) :
  valid_exponent Order -> (1 <= (N + 1) ÷ 2)%Z ->
  Por_Grad N Factor Order
  = ret (map (raw_val Factor Order) (arange ((N + 1) ÷ 2))
         ++ map (fun j => raw_val Factor Order ((N + 1) ÷ 2 - j - 2))
                (arange ((N + 1) ÷ 2 - 1))).
Proof.
  intros Hv Hh. unfold Por_Grad, fromfunction.
  destruct (Z.ltb_spec ((N + 1) ÷ 2) 0); [lia |].
  destruct (Z.ltb_spec ((N + 1) ÷ 2 - 1) 0); [lia |].
  rewrite (mapM_ext _ (fun j => ret (raw_val Factor Order j))).
  2:{ intros j. now rewrite power_valid. }
  rewrite mapM_ret. simpl bind.
  rewrite (mapM_ext _
    (fun j => ret (raw_val Factor Order ((N + 1) ÷ 2 - j - 2)))).
  2:{ intros j. now rewrite power_valid. }
  rewrite mapM_ret. reflexivity.
Qed.

Lemma Por_Grad_length (N : Z) (Factor : xreal) (Order : exponent)
    (raw : list xreal) :
  Z.odd N = true -> (1 <= N)%Z ->
  Por_Grad N Factor Order = inr raw -> length raw = Z.to_nat N.
Proof.
  intros Hodd HN. destruct (halfN_odd N Hodd HN) as [Hh H2].
  unfold Por_Grad, fromfunction.
  destruct (Z.ltb_spec ((N + 1) ÷ 2) 0); [lia |].
  destruct (Z.ltb_spec ((N + 1) ÷ 2 - 1) 0); [lia |].
  destruct (mapM _ (arange ((N + 1) ÷ 2))) as [e | l1] eqn:E1;
    simpl; [discriminate |].
  destruct (mapM _ (arange ((N + 1) ÷ 2 - 1))) as [e | l2] eqn:E2;
    simpl; [discriminate |].
  intros [= <-]. rewrite length_app.
  rewrite (mapM_length _ _ _ E1), (mapM_length _ _ _ E2), !arange_length.
  lia.
Qed.

(** An unusable exponent makes [Por_Grad] raise as soon as there is a
    column to evaluate. *)
Lemma Por_Grad_invalid (N : Z) (Factor : xreal) (Order : exponent) :
  ~ valid_exponent Order -> (1 <= (N + 1) ÷ 2)%Z ->
  Por_Grad N Factor Order = raise ValueError.
Proof.
  intros Hv Hh. unfold Por_Grad, fromfunction.
  destruct (Z.ltb_spec ((N + 1) ÷ 2) 0); [lia |].
  rewrite (mapM_ext _ (fun _ => raise ValueError)).
  2:{ intros j. now rewrite power_invalid. }
  rewrite mapM_raise; [reflexivity |].
  intros E. apply (f_equal (@length Z)) in E.
  rewrite arange_length in E. simpl in E. lia.
Qed.

(** Every exception of [Por_Grad] is a [ValueError]. *)
Lemma mapM_ValueError {A B} (f : A -> result B) (l : list A) (e : exn) :
  (forall a e', f a = inl e' -> e' = ValueError) ->
  mapM f l = inl e -> e = ValueError.
Proof.
  intros Hf. induction l as [| a l IH]; simpl; [discriminate |].
  destruct (f a) as [e' | b] eqn:E; simpl.
  - intros [= <-]. eapply Hf; eassumption.
  - destruct (mapM f l) as [e' | bs]; simpl; [| discriminate].
    intros [= <-]. now apply IH.
Qed.

Lemma power_ValueError (j : Z) (Order : exponent) (e : exn) :
  power j Order = inl e -> e = ValueError.
Proof.
  destruct Order as [k | y]; simpl; [| discriminate].
  destruct (k <? 0)%Z; [now intros [= <-] | discriminate].
Qed.

Lemma fromfunction_ValueError (f : Z -> result xreal) (n : Z) (e : exn) :
  (forall j e', f j = inl e' -> e' = ValueError) ->
  fromfunction f n = inl e -> e = ValueError.
Proof.
  intros Hf. unfold fromfunction. destruct (n <? 0)%Z.
  - now intros [= <-].
  - now apply mapM_ValueError.
Qed.

Lemma Por_Grad_ValueError (N : Z) (Factor : xreal) (Order : exponent)
    (e : exn) :
  Por_Grad N Factor Order = inl e -> e = ValueError.
Proof.
  assert (Hf : forall g : Z -> Z, forall j e',
            (p <- power (g j) Order ;; ret (xadd (Fin 1) (xmul Factor p)))
            = inl e' -> e' = ValueError).
  { intros g j e'. destruct (power (g j) Order) as [e0 | p] eqn:E; simpl.
    - intros [= <-]. eapply power_ValueError; eassumption.
    - discriminate. }
  unfold Por_Grad.
  destruct (fromfunction _ ((N + 1) ÷ 2)) as [e1 | l1] eqn:E1; simpl.
  - intros [= <-]. eapply fromfunction_ValueError; [| exact E1].
    apply (Hf (fun j => j)).
  - destruct (fromfunction _ ((N + 1) ÷ 2 - 1)) as [e2 | l2] eqn:E2; simpl.
    + intros [= <-]. eapply fromfunction_ValueError; [| exact E2].
      apply (Hf (fun j => ((N + 1) ÷ 2 - j - 2)%Z)).
    + discriminate.
Qed.

(** A grade count below [1] leaves a negative dimension for one of the two
    halves. *)
Lemma Por_Grad_nonpositive (N : Z) (Factor : xreal) (Order : exponent) :
  (N < 1)%Z -> Por_Grad N Factor Order = raise ValueError.
Proof.
  intros HN.
  destruct (Por_Grad N Factor Order) as [e | raw] eqn:E.
  - now rewrite (Por_Grad_ValueError _ _ _ _ E).
  - exfalso. revert E. unfold Por_Grad, fromfunction.
    destruct (Z.ltb_spec ((N + 1) ÷ 2) 0); [discriminate |].
    destruct (mapM _ (arange ((N + 1) ÷ 2))) as [e | l1]; simpl;
      [discriminate |].
    destruct (Z.ltb_spec ((N + 1) ÷ 2 - 1) 0); [discriminate |].
    pose proof (Z.quot_le_mono (N + 1) 1 2 ltac:(lia) ltac:(lia)) as Hq.
    change (1 ÷ 2)%Z with 0%Z in Hq. lia.
Qed.

Lemma odd_mod2 (N : Z) : Z.odd N = true -> (N mod 2 =? 0)%Z = false.
Proof.
  intros H. rewrite Zmod_odd, H. reflexivity.
Qed.

Lemma even_mod2 (N : Z) : Z.even N = true -> (N mod 2 =? 0)%Z = true.
Proof.
  intros H. rewrite Zmod_even, H. reflexivity.
Qed.

Lemma Por_Graded_set_grades (self : DBR) (pg tg : list xreal) :
  Por_Graded (set_grades self pg tg) = Some pg.
Proof. reflexivity. Qed.

Lemma T_Graded_set_grades (self : DBR) (pg tg : list xreal) :
  T_Graded (set_grades self pg tg) = Some tg.
Proof. reflexivity. Qed.

Lemma MakeGrades_even (self : DBR) (N : Z) (Factor : xreal)
    (Order : exponent) (Phi_arg : xreal) :
  Z.even N = true -> MakeGrades self N Factor Order Phi_arg = raise ValueError.
Proof. intros H. unfold MakeGrades. now rewrite even_mod2. Qed.

Lemma MakeGrades_odd (self : DBR) (N : Z) (Factor : xreal)
    (Order : exponent) (Phi_arg : xreal) (raw : list xreal) :
  Z.odd N = true ->
  Por_Grad N Factor Order = inr raw ->
  MakeGrades self N Factor Order Phi_arg
  = inr (set_grades self
           (map (fun x => xdiv x (scale_factor self N raw)) raw)
           (repeat (xdiv (T_Por self) (xofZ N)) (Z.to_nat N))).
Proof.
  intros H E. unfold MakeGrades. rewrite odd_mod2 by assumption.
  rewrite E. reflexivity.
Qed.

Lemma MakeGrades_raise (self : DBR) (N : Z) (Factor : xreal)
    (Order : exponent) (Phi_arg : xreal) (e : exn) :
  Por_Grad N Factor Order = inl e ->
  MakeGrades self N Factor Order Phi_arg = raise ValueError.
Proof.
  intros E. unfold MakeGrades. destruct (N mod 2 =? 0)%Z; [reflexivity |].
  rewrite E. simpl. now rewrite (Por_Grad_ValueError _ _ _ _ E).
Qed.

(** A successful call, read backwards. *)
Lemma MakeGrades_inv (self self' : DBR) (N : Z) (Factor : xreal)
    (Order : exponent) (Phi_arg : xreal) :
  MakeGrades self N Factor Order Phi_arg = inr self' ->
  Z.odd N = true /\ (1 <= N)%Z /\
  exists raw,
    Por_Grad N Factor Order = inr raw /\
    length raw = Z.to_nat N /\
    self' = set_grades self
              (map (fun x => xdiv x (scale_factor self N raw)) raw)
              (repeat (xdiv (T_Por self) (xofZ N)) (Z.to_nat N)).
Proof.
  intros H.
  assert (Hodd : Z.odd N = true).
  { destruct (Z.odd N) eqn:E; [reflexivity |].
    rewrite MakeGrades_even in H; [discriminate |].
    now rewrite <- Z.negb_odd, E. }
  assert (HN : (1 <= N)%Z).
  { destruct (Z.le_gt_cases 1 N) as [L | G]; [assumption |].
    rewrite (MakeGrades_raise _ _ _ _ _ ValueError) in H; [discriminate |].
    apply Por_Grad_nonpositive. lia. }
  destruct (Por_Grad N Factor Order) as [e | raw] eqn:E.
  - rewrite (MakeGrades_raise _ _ _ _ _ e E) in H. discriminate.
  - rewrite (MakeGrades_odd _ _ _ _ _ raw Hodd E) in H.
    injection H as <-. repeat split; try assumption.
    exists raw. repeat split.
    eapply Por_Grad_length; eassumption.
Qed.

(** C8.  The argument [Phi] of [MakeGrades] does not take part in the
    result: two calls on the same object that differ only in that argument
    return the same outcome (the same object state, so the same porosity
    values and sub-layer thicknesses, or the same exception), and on success
    the porosity values are the raw values divided by
    [sum(raw)/(NGrades*self.Phi)], with the porosity stored at
    construction. *)
Theorem MakeGrades_ignores_Phi_argument (self : DBR) (N : Z)
    (Factor : xreal) (Order : exponent) (Phi1 Phi2 : xreal) :
  MakeGrades self N Factor Order Phi1 = MakeGrades self N Factor Order Phi2 /\
  forall self', MakeGrades self N Factor Order Phi1 = inr self' ->
    exists raw, Por_Grad N Factor Order = inr raw /\
      Por_Graded self'
      = Some (map (fun x =>
                     xdiv x (xdiv (xsum raw) (xmul (xofZ N) (Phi self)))) raw)
      /\ T_Graded self'
         = Some (repeat (xdiv (T_Por self) (xofZ N)) (Z.to_nat N)).
Proof.
  split; [reflexivity |].
  intros self' H.
  apply MakeGrades_inv in H as (_ & _ & raw & E & _ & ->).
  exists raw. repeat split. assumption.
Qed.

Lemma MakeGrades_ignores_Phi_argument_witness :
  MakeGrades (scenario (Fin (37 / 100)) 12 (Fin 3400)) 3 (Fin 1)
             (IntOrder 1) (Fin (1 / 10))
  = MakeGrades (scenario (Fin (37 / 100)) 12 (Fin 3400)) 3 (Fin 1)
               (IntOrder 1) (Fin (9 / 10)) /\
  exists raw,
    Por_Grad 3 (Fin 1) (IntOrder 1) = inr raw /\
    Por_Graded (graded (scenario (Fin (37 / 100)) 12 (Fin 3400)) 3 (Fin 1)
                       (IntOrder 1))
    = Some (map (fun x =>
                   xdiv x (xdiv (xsum raw)
                                (xmul (xofZ 3) (Fin (37 / 100))))) raw) /\
    T_Graded (graded (scenario (Fin (37 / 100)) 12 (Fin 3400)) 3 (Fin 1)
                     (IntOrder 1))
    = Some (repeat (xdiv (Fin (345 / 1000 * (973 / 10))) (xofZ 3)) 3).
Proof.
  destruct (MakeGrades_ignores_Phi_argument
              (scenario (Fin (37 / 100)) 12 (Fin 3400)) 3 (Fin 1)
              (IntOrder 1) (Fin (1 / 10)) (Fin (9 / 10))) as [H1 H2].
  split; [exact H1 |].
  apply (H2 (graded (scenario (Fin (37 / 100)) 12 (Fin 3400)) 3 (Fin 1)
                    (IntOrder 1))).
  reflexivity.
Defined.

(** Evaluation of the arithmetic on concrete finite values: the list and
    integer structure is computed, the real-number expressions are left to
    [lra]. *)
Ltac xcompute :=
  cbn -[IZR Rplus Rmult Rdiv Rminus Ropp Rinv Rsign Rpower sqrt Int_part
        xdiv xsqrt xltb].

Lemma MakeGrades_succeeds (self : DBR) (N : Z) (Factor : xreal)
    (Order : exponent) (Phi_arg : xreal) :
  Z.odd N = true -> (1 <= N)%Z -> valid_exponent Order ->
  exists self' pg tg,
    MakeGrades self N Factor Order Phi_arg = inr self' /\
    Por_Graded self' = Some pg /\ T_Graded self' = Some tg /\
    length pg = Z.to_nat N /\ length tg = Z.to_nat N.
Proof.
  intros Hodd HN Hv.
  destruct (halfN_odd N Hodd HN) as [Hh _].
  pose proof (Por_Grad_valid N Factor Order Hv Hh) as E.
  unfold ret in E.
  pose proof (Por_Grad_length _ _ _ _ Hodd HN E) as L.
  rewrite (MakeGrades_odd _ _ _ _ _ _ Hodd E).
  eexists _, _, _. split; [reflexivity |]. simpl.
  split; [reflexivity |]. split; [reflexivity |].
  split; [now rewrite length_map | now rewrite repeat_length].
Qed.

Lemma MakeGrades_invalid_exponent (self : DBR) (N : Z) (Factor : xreal)
    (Order : exponent) (Phi_arg : xreal) :
  Z.odd N = true -> (1 <= N)%Z -> ~ valid_exponent Order ->
  MakeGrades self N Factor Order Phi_arg = inl ValueError.
Proof.
  intros Hodd HN Hv.
  destruct (halfN_odd N Hodd HN) as [Hh _].
  apply (MakeGrades_raise _ _ _ _ _ ValueError).
  now apply Por_Grad_invalid.
Qed.

(** C4 (as the code has it).  [MakeGrades] raises a [ValueError] when the
    grade count is even or less than [1]; for an odd grade count of at least
    [1] it succeeds, with [gradeCount] porosity values and [gradeCount]
    sub-layer thicknesses, exactly when the exponent is not a negative
    Python int (numpy refuses an integer to a negative integer power, and
    the call then raises a [ValueError] too). *)
Theorem MakeGrades_grade_count (self : DBR) (N : Z) (Factor : xreal)
    (Order : exponent) (Phi_arg : xreal) :
  (Z.even N = true \/ (N < 1)%Z ->
   MakeGrades self N Factor Order Phi_arg = inl ValueError) /\
  (Z.odd N = true -> (1 <= N)%Z -> valid_exponent Order ->
   exists self' pg tg,
     MakeGrades self N Factor Order Phi_arg = inr self' /\
     Por_Graded self' = Some pg /\ T_Graded self' = Some tg /\
     length pg = Z.to_nat N /\ length tg = Z.to_nat N) /\
  (Z.odd N = true -> (1 <= N)%Z -> ~ valid_exponent Order ->
   MakeGrades self N Factor Order Phi_arg = inl ValueError).
Proof.
  split; [| split].
  - intros [He | HN].
    + now apply MakeGrades_even.
    + apply (MakeGrades_raise _ _ _ _ _ ValueError).
      now apply Por_Grad_nonpositive.
  - apply MakeGrades_succeeds.
  - apply MakeGrades_invalid_exponent.
Qed.

Lemma MakeGrades_grade_count_witness :
  MakeGrades (scenario (Fin (37 / 100)) 12 (Fin 3400)) 10 (Fin 1)
             (FloatOrder (1 / 8)) (Fin (37 / 100)) = inl ValueError /\
  (exists self' pg tg,
     MakeGrades (scenario (Fin (37 / 100)) 12 (Fin 3400)) 11 (Fin 1)
                (FloatOrder (1 / 8)) (Fin (37 / 100)) = inr self' /\
     Por_Graded self' = Some pg /\ T_Graded self' = Some tg /\
     length pg = 11%nat /\ length tg = 11%nat) /\
  MakeGrades (scenario (Fin (37 / 100)) 12 (Fin 3400)) 11 (Fin 1)
             (IntOrder (-1)) (Fin (37 / 100)) = inl ValueError.
Proof.
  split; [| split].
  - apply (proj1 (MakeGrades_grade_count
             (scenario (Fin (37 / 100)) 12 (Fin 3400)) 10
             (Fin 1) (FloatOrder (1 / 8)) (Fin (37 / 100)))).
    left. reflexivity.
  - apply (proj1 (proj2 (MakeGrades_grade_count
             (scenario (Fin (37 / 100)) 12 (Fin 3400)) 11
             (Fin 1) (FloatOrder (1 / 8)) (Fin (37 / 100)))));
      [reflexivity | lia | exact I].
  - apply (proj2 (proj2 (MakeGrades_grade_count
             (scenario (Fin (37 / 100)) 12 (Fin 3400)) 11
             (Fin 1) (IntOrder (-1)) (Fin (37 / 100)))));
      [reflexivity | lia | simpl; lia].
Defined.

(** C4, the claim as written fails: an odd grade count of at least [1] does
    not always succeed.  With the integer exponent [-1] the call
    [MakeGrades(3, 1.0, -1, 0.37)] raises. *)
Lemma MakeGrades_odd_count_can_fail :
  Z.odd 3 = true /\ (1 <= 3)%Z /\
  MakeGrades (scenario (Fin (37 / 100)) 12 (Fin 3400)) 3 (Fin 1)
             (IntOrder (-1)) (Fin (37 / 100)) = inl ValueError.
Proof.
  split; [reflexivity |]. split; [lia |].
  apply MakeGrades_invalid_exponent; [reflexivity | lia | simpl; lia].
Qed.

(** *** Sub-layer thicknesses *)

Lemma INR_to_nat (N : Z) : (0 <= N)%Z -> INR (Z.to_nat N) = IZR N.
Proof. intros H. rewrite INR_IZR_INZ, Z2Nat.id by assumption. reflexivity. Qed.

Lemma IZR_pos (N : Z) : (1 <= N)%Z -> 1 <= IZR N.
Proof. intros H. now apply IZR_le in H. Qed.




(** *** The porosity values *)


(** With a non-negative factor and a non-negative float exponent every raw
    shape value is finite and at least [1]. *)
Lemma float_pow_nonneg (j : Z) (y : R) :
  (0 <= j)%Z -> 0 <= y -> exists r, float_pow j y = Fin r /\ 0 <= r.
Proof.
  intros Hj Hy. destruct j as [| q | q]; simpl.
  - destruct (Rsign_cases y) as [[H _] | [[_ ->] | [_ ->]]].
    + lra.
    + exists 1. split; [reflexivity | lra].
    + exists 0. split; [reflexivity | lra].
  - eexists. split; [reflexivity |]. unfold Rpower. left. apply exp_pos.
  - lia.
Qed.

Lemma raw_val_float_ge1 (f y : R) (j : Z) :
  0 <= f -> 0 <= y -> (0 <= j)%Z ->
  exists r, raw_val (Fin f) (FloatOrder y) j = Fin r /\ 1 <= r.
Proof.
  intros Hf Hy Hj. unfold raw_val, pow_val.
  destruct (float_pow_nonneg j y Hj Hy) as [r [-> Hr]].
  simpl. eexists. split; [reflexivity | nra].
Qed.

Lemma Forall_Fin (P : R -> Prop) (l : list xreal) :
  Forall (fun x => exists r, x = Fin r /\ P r) l ->
  exists rs, l = map Fin rs /\ Forall P rs.
Proof.
  induction 1 as [| x l [r [-> Hr]] _ [rs [-> Hrs]]].
  - exists []. split; [reflexivity | constructor].
  - exists (r :: rs). split; [reflexivity | now constructor].
Qed.

Lemma Por_Grad_float_ge1 (N : Z) (f y : R) :
  Z.odd N = true -> (1 <= N)%Z -> 0 <= f -> 0 <= y ->
  exists rs,
    Por_Grad N (Fin f) (FloatOrder y) = inr (map Fin rs) /\
    Forall (fun r => 1 <= r) rs /\ length rs = Z.to_nat N.
Proof.
  intros Hodd HN Hf Hy.
  destruct (halfN_odd N Hodd HN) as [Hh _].
  pose proof (Por_Grad_valid N (Fin f) (FloatOrder y) I Hh) as E.
  unfold ret in E.
  match type of E with _ = inr ?l =>
    assert (HF : Forall (fun x => exists r, x = Fin r /\ 1 <= r) l)
  end.
  { apply Forall_app. split; apply Forall_forall; intros x Hx;
      apply in_map_iff in Hx as [j [<- Hj]]; apply arange_In in Hj;
      apply raw_val_float_ge1; assumption || lia. }
  destruct (Forall_Fin _ _ HF) as [rs [El Hrs]].
  rewrite El in E. exists rs. split; [assumption |]. split; [assumption |].
  apply Por_Grad_length in E; try assumption.
  now rewrite length_map in E.
Qed.

Lemma Rsum_pos (N : Z) (rs : list R) :
  (1 <= N)%Z -> length rs = Z.to_nat N -> Forall (fun r => 1 <= r) rs ->
  0 < Rsum rs.
Proof.
  intros HN L HF. apply Rsum_ge_length in HF.
  rewrite L, INR_to_nat in HF by lia.
  pose proof (IZR_pos N HN). lra.
Qed.



(** The same zero sum on the extended reals:
    [MakeGrades(3, -3.0, 1, 0.37)] has the raw values [1, -2, 1], all
    defined, the scale factor [0/(3*0.37) = 0], the porosity values
    [inf, -inf, inf] and the mean [nan]. *)
Lemma Por_Graded_average_fails_on_zero_sum :
  Z.odd 3 = true /\ (1 <= 3)%Z /\
  Phi (scenario (Fin (37 / 100)) 12 (Fin 3400)) = Fin (37 / 100) /\
  0 < 37 / 100 /\
  Por_Grad 3 (Fin (-3)) (IntOrder 1)
  = inr (map Fin [1 + -3 * 0; 1 + -3 * 1; 1 + -3 * 0]) /\
  exists self',
    MakeGrades (scenario (Fin (37 / 100)) 12 (Fin 3400)) 3 (Fin (-3))
               (IntOrder 1) (Fin (37 / 100)) = inr self' /\
    Por_Graded self' = Some [PInf; NInf; PInf] /\
    average [PInf; NInf; PInf] = NaN /\
    ~ py_eq (average [PInf; NInf; PInf]) (Fin (37 / 100)).
Proof.
  split; [reflexivity |]. split; [lia |]. split; [reflexivity |].
  split; [lra |]. split; [reflexivity |].
  eexists. split.
  - apply (MakeGrades_odd _ _ _ _ _
             (map Fin [1 + -3 * 0; 1 + -3 * 1; 1 + -3 * 0])); reflexivity.
  - assert (Ha : scale_factor (scenario (Fin (37 / 100)) 12 (Fin 3400)) 3
                   (map Fin [1 + -3 * 0; 1 + -3 * 1; 1 + -3 * 0]) = Fin 0).
    { unfold scale_factor. rewrite xsum_Fin. xcompute.
      rewrite xdiv_Fin by lra. f_equal. lra. }
    split.
    + rewrite Por_Graded_set_grades, Ha. xcompute.
      rewrite !xdiv_Fin_zero by reflexivity.
      rewrite !(Rsign_Pos (1 + -3 * 0)) by lra.
      rewrite (Rsign_Neg (1 + -3 * 1)) by lra. reflexivity.
    + split; [reflexivity |]. intros [E _]. discriminate E.
Qed.

(** *** A stored porosity of zero *)

Lemma map_const_repeat {A B} (c : B) (l : list A) :
  map (fun _ => c) l = repeat c (length l).
Proof. induction l as [| a l IH]; simpl; [reflexivity | now rewrite IH]. Qed.

(** With [self.Phi = 0] the scale factor is a division by zero: an infinity
    when the raw values have a non-zero finite sum, and every raw value over
    it is [0]. *)
Lemma MakeGrades_zero_Phi (self : DBR) (N : Z) (Factor : xreal)
    (Order : exponent) (Phi_arg : xreal) (rs : list R) :
  Phi self = Fin 0 -> Z.odd N = true -> (1 <= N)%Z ->
  Por_Grad N Factor Order = inr (map Fin rs) -> Rsum rs <> 0 ->
  (scale_factor self N (map Fin rs) = PInf \/
   scale_factor self N (map Fin rs) = NInf) /\
  exists self',
    MakeGrades self N Factor Order Phi_arg = inr self' /\
    Por_Graded self' = Some (repeat (Fin 0) (Z.to_nat N)).
Proof.
  intros HP Hodd HN E HS.
  pose proof (Por_Grad_length _ _ _ _ Hodd HN E) as L.
  assert (Ha : scale_factor self N (map Fin rs) = PInf \/
               scale_factor self N (map Fin rs) = NInf).
  { unfold scale_factor. rewrite HP, xsum_Fin. simpl xmul.
    rewrite xdiv_Fin_zero by lra.
    destruct (Rsign_cases (Rsum rs)) as [[_ ->] | [[H _] | [_ ->]]];
      [now right | contradiction | now left]. }
  split; [assumption |].
  rewrite (MakeGrades_odd _ _ _ _ _ _ Hodd E).
  eexists. split; [reflexivity |].
  rewrite Por_Graded_set_grades. f_equal.
  rewrite <- L, map_map, <- map_const_repeat, map_map.
  apply map_ext. intros r.
  destruct Ha as [-> | ->]; reflexivity.
Qed.

(** C3 (as the code has it).  With a stored porosity of [0], an odd grade
    count of at least [1] and a usable exponent, [MakeGrades] raises nothing
    and returns; when the raw shape values are finite with a non-zero sum
    the scale factor is an infinity and every porosity value is [0]. *)
Theorem MakeGrades_zero_porosity (self : DBR) (N : Z) (Factor : xreal)
    (Order : exponent) (Phi_arg : xreal) :
  Phi self = Fin 0 -> Z.odd N = true -> (1 <= N)%Z ->
  valid_exponent Order ->
  (exists self', MakeGrades self N Factor Order Phi_arg = inr self') /\
  (forall rs,
     Por_Grad N Factor Order = inr (map Fin rs) -> Rsum rs <> 0 ->
     (scale_factor self N (map Fin rs) = PInf \/
      scale_factor self N (map Fin rs) = NInf) /\
     exists self',
       MakeGrades self N Factor Order Phi_arg = inr self' /\
       Por_Graded self' = Some (repeat (Fin 0) (Z.to_nat N))).
Proof.
  intros HP Hodd HN Hv. split.
  - destruct (MakeGrades_succeeds self N Factor Order Phi_arg Hodd HN Hv)
      as (self' & _ & _ & E & _).
    now exists self'.
  - intros rs E HS. eapply MakeGrades_zero_Phi; eassumption.
Qed.

Lemma MakeGrades_zero_porosity_witness :
  (exists self',
     MakeGrades (scenario (Fin 0) 12 (Fin 3400)) 3 (Fin 1) (IntOrder 1) (Fin 0)
     = inr self') /\
  (forall rs,
     Por_Grad 3 (Fin 1) (IntOrder 1) = inr (map Fin rs) -> Rsum rs <> 0 ->
     (scale_factor (scenario (Fin 0) 12 (Fin 3400)) 3 (map Fin rs) = PInf \/
      scale_factor (scenario (Fin 0) 12 (Fin 3400)) 3 (map Fin rs) = NInf) /\
     exists self',
       MakeGrades (scenario (Fin 0) 12 (Fin 3400)) 3 (Fin 1) (IntOrder 1) (Fin 0)
       = inr self' /\
       Por_Graded self' = Some (repeat (Fin 0) 3)).
Proof.
  apply (MakeGrades_zero_porosity (scenario (Fin 0) 12 (Fin 3400)) 3 (Fin 1)
           (IntOrder 1) (Fin 0)).
  - reflexivity.
  - reflexivity.
  - lia.
  - simpl. lia.
Defined.

(** C3, the claim as written fails: the second end-to-end scenario of the
    specification ([targetPorosity = 0], eleven grades, factor [1], exponent
    [1/8]) raises nothing; it returns eleven porosity values, all [0]. *)
Lemma MakeGrades_zero_porosity_returns :
  Phi (scenario (Fin 0) 12 (Fin 3400)) = Fin 0 /\
  exists self',
    MakeGrades (scenario (Fin 0) 12 (Fin 3400)) 11 (Fin 1)
               (FloatOrder (1 / 8)) (Fin 0) = inr self' /\
    Por_Graded self' = Some (repeat (Fin 0) 11).
Proof.
  split; [reflexivity |].
  destruct (Por_Grad_float_ge1 11 1 (1 / 8) eq_refl ltac:(lia)
              ltac:(lra) ltac:(lra)) as (rs & E & HF & L).
  assert (HS : 0 < Rsum rs) by (apply (Rsum_pos 11); assumption || lia).
  destruct (MakeGrades_zero_Phi (scenario (Fin 0) 12 (Fin 3400)) 11 (Fin 1)
              (FloatOrder (1 / 8)) (Fin 0) rs eq_refl eq_refl ltac:(lia) E
              ltac:(lra)) as [_ H].
  exact H.
Qed.

(** ** Stack assembly *)

Lemma list_mul_nonpos {A} (l : list A) (k : Z) :
  (k <= 0)%Z -> list_mul l k = [].
Proof.
  intros H. unfold list_mul.
  replace (Z.to_nat k) with 0%nat by lia. reflexivity.
Qed.

Lemma concat_repeat_length {A} (l : list A) (k : nat) :
  length (concat (repeat l k)) = (k * length l)%nat.
Proof.
  induction k as [| k IH]; simpl; [reflexivity |].
  now rewrite length_app, IH.
Qed.

Lemma list_mul_length {A} (l : list A) (k : Z) :
  length (list_mul l k) = (Z.to_nat k * length l)%nat.
Proof. apply concat_repeat_length. Qed.

(** Entry [i] of repetition [r] of [l * k] is entry [i] of [l]. *)
Lemma concat_repeat_nth {A} (l : list A) (k r i : nat) (d : A) :
  (r < k)%nat -> (i < length l)%nat ->
  nth (r * length l + i) (concat (repeat l k)) d = nth i l d.
Proof.
  revert r. induction k as [| k IH]; intros r Hr Hi; [lia |].
  simpl repeat. simpl concat. destruct r as [| r].
  - simpl. now rewrite app_nth1.
  - rewrite app_nth2 by (simpl; lia).
    replace (S r * length l + i - length l)%nat
      with (r * length l + i)%nat by (simpl; lia).
    apply IH; [lia | assumption].
Qed.

Lemma list_mul_nth {A} (l : list A) (k : Z) (r i : nat) (d : A) :
  (r < Z.to_nat k)%nat -> (i < length l)%nat ->
  nth (r * length l + i) (list_mul l k) d = nth i l d.
Proof. apply concat_repeat_nth. Qed.

Lemma make_d_list_eq (self : DBR) (tg : list xreal) :
  T_Graded self = Some tg ->
  make_d_list self
  = inr (PInf :: list_mul (T_GaN self :: tg) (NLayers self)
              ++ [T_Temp self; PInf]).
Proof. intros H. unfold make_d_list. rewrite H. reflexivity. Qed.

Lemma make_n_list_eq (self : DBR) (n n_Space n_Sub : xreal)
    (pg : list xreal) :
  Por_Graded self = Some pg ->
  make_n_list self n n_Space n_Sub
  = inr (map (fun p => porosity_to_n p n n_Space) pg,
         Fin 1 :: list_mul (n :: map (fun p => porosity_to_n p n n_Space) pg)
                           (NLayers self)
               ++ [n; n_Sub]).
Proof. intros H. unfold make_n_list. rewrite H. reflexivity. Qed.

Lemma make_d_list_parts_eq (self TopDBR : DBR) (tg tgTop : list xreal) :
  T_Graded self = Some tg -> T_Graded TopDBR = Some tgTop ->
  make_d_list_parts self TopDBR
  = inr (PInf :: (list_mul (T_GaN TopDBR :: tgTop) (NLayers TopDBR)
                  ++ list_mul (T_GaN self :: tg) (NLayers self))
              ++ [T_Temp self; PInf]).
Proof.
  intros H HT. unfold make_d_list_parts. rewrite H, HT. simpl.
  now rewrite <- app_assoc.
Qed.

(** Positions in a list of the shape [x :: interior ++ [y; z]]. *)
Lemma framed_length {A} (x y z : A) (interior : list A) :
  length (x :: interior ++ [y; z]) = (1 + length interior + 2)%nat.
Proof. simpl. rewrite length_app. simpl. lia. Qed.

Lemma framed_nth_interior {A} (x y z d : A) (interior : list A) (i : nat) :
  (i < length interior)%nat ->
  nth (1 + i) (x :: interior ++ [y; z]) d = nth i interior d.
Proof. intros H. simpl. now rewrite app_nth1. Qed.

Lemma framed_nth_tail {A} (x y z d : A) (interior : list A) :
  nth (1 + length interior) (x :: interior ++ [y; z]) d = y /\
  nth (2 + length interior) (x :: interior ++ [y; z]) d = z.
Proof.
  split; simpl.
  - rewrite app_nth2 by lia. now rewrite Nat.sub_diag.
  - rewrite app_nth2 by lia.
    now replace (S (length interior) - length interior)%nat with 1%nat by lia.
Qed.

(** C5.  For a repeat count of at least [0] and a profile whose porosity
    and thickness sequences both have [g] entries (as [MakeGrades] builds
    them, [g] being the grade count), the index list and the thickness list
    have the same length [1 + repeatCount*(1+g) + 2]; repetition [r] of the
    interior holds the non-porous entry (thickness [T_GaN], index [n]) at
    position [1 + r*(1+g)] of both lists, followed by the [g] graded entries
    in order (thickness [T_Graded[k]], index of porosity [Por_Graded[k]]);
    with a repeat count of [0] only the boundary and template entries
    remain. *)
Theorem stack_lists_aligned (self : DBR) (pg tg : list xreal)
    (n n_Space n_Sub : xreal) (g : nat) :
  Por_Graded self = Some pg -> T_Graded self = Some tg ->
  length pg = g -> length tg = g -> (0 <= NLayers self)%Z ->
  exists d n_Por nl,
    make_d_list self = inr d /\
    make_n_list self n n_Space n_Sub = inr (n_Por, nl) /\
    length nl = length d /\
    length d = (1 + Z.to_nat (NLayers self) * (1 + g) + 2)%nat /\
    (forall r, (r < Z.to_nat (NLayers self))%nat ->
       nth (1 + r * (1 + g)) d NaN = T_GaN self /\
       nth (1 + r * (1 + g)) nl NaN = n /\
       forall k, (k < g)%nat ->
         nth (1 + r * (1 + g) + 1 + k) d NaN = nth k tg NaN /\
         nth (1 + r * (1 + g) + 1 + k) nl NaN
         = porosity_to_n (nth k pg NaN) n n_Space) /\
    (NLayers self = 0%Z ->
       d = [PInf; T_Temp self; PInf] /\ nl = [Fin 1; n; n_Sub]).
Proof.
  intros Hpg Htg Lpg Ltg HNL.
  rewrite (make_d_list_eq _ _ Htg), (make_n_list_eq _ _ _ _ _ Hpg).
  eexists _, _, _. split; [reflexivity |]. split; [reflexivity |].
  set (np := map (fun p => porosity_to_n p n n_Space) pg).
  assert (Lnp : length np = g) by (unfold np; now rewrite length_map).
  assert (Ld : length (T_GaN self :: tg) = (1 + g)%nat) by (simpl; lia).
  assert (Ln : length (n :: np) = (1 + g)%nat) by (simpl; lia).
  split; [| split; [| split]].
  - rewrite !framed_length, !list_mul_length, Ld, Ln. reflexivity.
  - rewrite framed_length, list_mul_length, Ld. reflexivity.
  - intros r Hr.
    assert (Hd : forall i, (i < 1 + g)%nat ->
              nth (1 + (r * (1 + g) + i))
                  (PInf :: list_mul (T_GaN self :: tg) (NLayers self)
                        ++ [T_Temp self; PInf]) NaN
              = nth i (T_GaN self :: tg) NaN).
    { intros i Hi. rewrite framed_nth_interior.
      - rewrite <- Ld at 1. apply list_mul_nth; lia.
      - rewrite list_mul_length, Ld. nia. }
    assert (Hn : forall i, (i < 1 + g)%nat ->
              nth (1 + (r * (1 + g) + i))
                  (Fin 1 :: list_mul (n :: np) (NLayers self)
                         ++ [n; n_Sub]) NaN
              = nth i (n :: np) NaN).
    { intros i Hi. rewrite framed_nth_interior.
      - rewrite <- Ln at 1. apply list_mul_nth; lia.
      - rewrite list_mul_length, Ln. nia. }
    split; [| split].
    + replace (1 + r * (1 + g))%nat with (1 + (r * (1 + g) + 0))%nat by lia.
      now rewrite Hd by lia.
    + replace (1 + r * (1 + g))%nat with (1 + (r * (1 + g) + 0))%nat by lia.
      now rewrite Hn by lia.
    + intros k Hk.
      replace (1 + r * (1 + g) + 1 + k)%nat
        with (1 + (r * (1 + g) + S k))%nat by lia.
      rewrite Hd, Hn by lia. simpl. split; [reflexivity |].
      unfold np.
      rewrite (nth_indep _ NaN (porosity_to_n NaN n n_Space))
        by (rewrite length_map; lia).
      apply (map_nth (fun p => porosity_to_n p n n_Space)).
  - intros H0. rewrite H0. split; reflexivity.
Qed.

Lemma stack_lists_aligned_witness :
  exists d n_Por nl,
    make_d_list (graded (scenario (Fin (37 / 100)) 12 (Fin 3400)) 3 (Fin 1)
                        (IntOrder 1)) = inr d /\
    make_n_list (graded (scenario (Fin (37 / 100)) 12 (Fin 3400)) 3 (Fin 1)
                        (IntOrder 1))
                (Fin (238 / 100)) (Fin 1) (Fin (176 / 100))
    = inr (n_Por, nl) /\
    length nl = length d /\
    length d = 51%nat /\
    nth 5 d NaN = T_GaN (scenario (Fin (37 / 100)) 12 (Fin 3400)) /\
    nth 5 nl NaN = Fin (238 / 100).
Proof.
  destruct (stack_lists_aligned
              (graded (scenario (Fin (37 / 100)) 12 (Fin 3400)) 3 (Fin 1)
                      (IntOrder 1))
              _ _ (Fin (238 / 100)) (Fin 1) (Fin (176 / 100)) 3
              eq_refl eq_refl eq_refl eq_refl ltac:(simpl; lia))
    as (d & n_Por & nl & Hd & Hn & HL & Hlen & Hpos & _).
  exists d, n_Por, nl.
  destruct (Hpos 1%nat ltac:(simpl; lia)) as (H1 & H2 & _).
  repeat split; assumption.
Defined.

(** C7 (as the code has it).  Whenever the thickness list is built, by
    [Simulate] or by [SimulateParts], it is the semi-infinite incidence
    entry, the repeated interior block, the template entry [self.T_Temp] and
    the semi-infinite substrate entry: the template entry is always there,
    second from the end, whatever its value, zero included. *)
Theorem d_list_boundaries (self TopDBR : DBR) (tg tgTop : list xreal) :
  T_Graded self = Some tg -> T_Graded TopDBR = Some tgTop ->
  (exists d interior,
     make_d_list self = inr d /\
     interior = list_mul (T_GaN self :: tg) (NLayers self) /\
     d = PInf :: interior ++ [T_Temp self; PInf] /\
     length d = (length interior + 3)%nat /\
     nth 0 d NaN = PInf /\
     nth (length d - 2) d NaN = T_Temp self /\
     nth (length d - 1) d NaN = PInf) /\
  (exists d interior,
     make_d_list_parts self TopDBR = inr d /\
     interior = list_mul (T_GaN TopDBR :: tgTop) (NLayers TopDBR)
                ++ list_mul (T_GaN self :: tg) (NLayers self) /\
     d = PInf :: interior ++ [T_Temp self; PInf] /\
     length d = (length interior + 3)%nat /\
     nth 0 d NaN = PInf /\
     nth (length d - 2) d NaN = T_Temp self /\
     nth (length d - 1) d NaN = PInf).
Proof.
  intros H HT.
  assert (Hshape : forall interior : list xreal,
    length (PInf :: interior ++ [T_Temp self; PInf])
    = (length interior + 3)%nat /\
    nth 0 (PInf :: interior ++ [T_Temp self; PInf]) NaN = PInf /\
    nth (length (PInf :: interior ++ [T_Temp self; PInf]) - 2)
        (PInf :: interior ++ [T_Temp self; PInf]) NaN = T_Temp self /\
    nth (length (PInf :: interior ++ [T_Temp self; PInf]) - 1)
        (PInf :: interior ++ [T_Temp self; PInf]) NaN = PInf).
  { intros interior.
    destruct (framed_nth_tail PInf (T_Temp self) PInf NaN interior)
      as [Hy Hz].
    rewrite framed_length.
    replace (1 + length interior + 2 - 2)%nat
      with (1 + length interior)%nat by lia.
    replace (1 + length interior + 2 - 1)%nat
      with (2 + length interior)%nat by lia.
    repeat split; try assumption. lia. }
  split.
  - rewrite (make_d_list_eq _ _ H). eexists _, _.
    split; [reflexivity |]. split; [reflexivity |]. split; [reflexivity |].
    apply Hshape.
  - rewrite (make_d_list_parts_eq _ _ _ _ H HT). eexists _, _.
    split; [reflexivity |]. split; [reflexivity |]. split; [reflexivity |].
    apply Hshape.
Qed.

Lemma d_list_boundaries_witness :
  exists d,
    make_d_list (graded (scenario (Fin (37 / 100)) 12 (Fin 3400)) 3 (Fin 1)
                        (IntOrder 1)) = inr d /\
    nth 0 d NaN = PInf /\
    nth (length d - 2) d NaN = Fin 3400 /\
    nth (length d - 1) d NaN = PInf.
Proof.
  destruct (d_list_boundaries
              (graded (scenario (Fin (37 / 100)) 12 (Fin 3400)) 3 (Fin 1)
                      (IntOrder 1))
              (graded (scenario (Fin (37 / 100)) 12 (Fin 0)) 3 (Fin 1)
                      (IntOrder 1))
              _ _ eq_refl eq_refl)
    as [(d & interior & Hd & _ & _ & _ & H0 & H1 & H2) _].
  exists d. repeat split; assumption.
Defined.

(** C7, the claim as written fails for a template thickness of [0]: the
    thickness list still carries the template entry, a layer of thickness
    [0], between the interior block and the substrate entry. *)
Lemma d_list_zero_template_entry_present :
  T_Temp (graded (scenario (Fin (37 / 100)) 12 (Fin 0)) 3 (Fin 1) (IntOrder 1))
  = Fin 0 /\
  exists d interior,
    make_d_list (graded (scenario (Fin (37 / 100)) 12 (Fin 0)) 3 (Fin 1)
                        (IntOrder 1)) = inr d /\
    length interior = 48%nat /\
    d = PInf :: interior ++ [Fin 0; PInf] /\
    d <> PInf :: interior ++ [PInf] /\
    length d = 51%nat /\
    nth 49 d NaN = Fin 0.
Proof.
  split; [reflexivity |].
  set (obj := graded (scenario (Fin (37 / 100)) 12 (Fin 0)) 3 (Fin 1)
                     (IntOrder 1)).
  exists (PInf :: list_mul (T_GaN obj :: repeat (xdiv (T_Por obj) (xofZ 3)) 3)
                           (NLayers obj)
               ++ [T_Temp obj; PInf]),
         (list_mul (T_GaN obj :: repeat (xdiv (T_Por obj) (xofZ 3)) 3)
                   (NLayers obj)).
  split; [now apply make_d_list_eq |].
  split; [reflexivity |]. split; [reflexivity |].
  split; [| split; reflexivity].
  intros E. apply (f_equal (@length xreal)) in E. discriminate E.
Qed.

(** ** A top segment that is not repeated *)

Lemma make_d_list_parts_zero (self TopDBR : DBR) (tgTop : list xreal) :
  NLayers TopDBR = 0%Z -> T_Graded TopDBR = Some tgTop ->
  make_d_list_parts self TopDBR = make_d_list self.
Proof.
  intros H0 HT. unfold make_d_list_parts, make_d_list.
  destruct (T_Graded self) as [tg |]; simpl; [| reflexivity].
  rewrite HT, H0. reflexivity.
Qed.

Lemma make_n_list_parts_zero (self TopDBR : DBR) (pgTop : list xreal)
    (n n_Space n_Sub : xreal) :
  NLayers TopDBR = 0%Z -> Por_Graded TopDBR = Some pgTop ->
  make_n_list_parts self TopDBR n n_Space n_Sub
  = (pn <- make_n_list self n n_Space n_Sub ;;
     ret (fst pn, map (fun p => porosity_to_n p n n_Space) pgTop, snd pn)).
Proof.
  intros H0 HT. unfold make_n_list_parts, make_n_list.
  destruct (Por_Graded self) as [pg |]; simpl; [| reflexivity].
  rewrite HT, H0. reflexivity.
Qed.

Section SimulationProperties.

Variable coh_tmm :
  polarization -> list xreal -> list xreal -> xreal -> xreal -> result xreal.
Variable loadtxt : string -> result (list (xreal * xreal)).
Variable interp1d :
  list xreal -> list xreal -> result (xreal -> result xreal).

(** The two per-wavelength loops run in step: the loop of
    [SimulateParts], forgetting [TopDBR.nPor], is the loop of
    [Simulate]. *)
Lemma table_loop_parts_zero (self TopDBR : DBR) (pgTop : list xreal)
    (n_func : xreal -> result xreal) (n_Space n_Sub : xreal)
    (d wav : list xreal) :
  NLayers TopDBR = 0%Z -> Por_Graded TopDBR = Some pgTop ->
  forall np npTop nl rn,
    (st <- table_loop_parts coh_tmm self TopDBR n_func n_Space n_Sub d wav
             (np, npTop, nl, rn) ;;
     ret (drop_top st))
    = table_loop coh_tmm self n_func n_Space n_Sub d wav (np, nl, rn).
Proof.
  intros H0 HT. induction wav as [| Lambda wav IH]; intros np npTop nl rn.
  - reflexivity.
  - simpl table_loop_parts. simpl table_loop.
    destruct (n_func Lambda) as [e | n]; simpl; [reflexivity |].
    rewrite (make_n_list_parts_zero _ _ _ _ _ _ H0 HT).
    destruct (make_n_list self n n_Space n_Sub) as [e | [n_Por nl']];
      simpl; [reflexivity |].
    destruct (coh_tmm s_pol nl' d (Fin 0) Lambda) as [e | r]; simpl;
      [reflexivity |].
    apply IH.
Qed.

(** C6.  When the top structure is repeated [0] times (and has been
    graded), [SimulateParts] builds the thickness list and the index list
    that [Simulate] builds for the bottom structure alone, and the whole
    run agrees: the same exception, or the same new state of [self]
    (wavelengths, thickness list, index list, reflectances and logged
    graded indices), for every bottom structure, in both the constant-index
    and the dispersion-table branch. *)
Theorem SimulateParts_zero_top (self TopDBR : DBR)
    (pgTop tgTop : list xreal) (n_Sub n_Space : xreal)
    (file : option string) (n : xreal) :
  NLayers TopDBR = 0%Z ->
  Por_Graded TopDBR = Some pgTop -> T_Graded TopDBR = Some tgTop ->
  make_d_list_parts self TopDBR = make_d_list self /\
  (forall m,
     (pn <- make_n_list_parts self TopDBR m n_Space n_Sub ;; ret (snd pn))
     = (pn <- make_n_list self m n_Space n_Sub ;; ret (snd pn))) /\
  (st <- SimulateParts coh_tmm loadtxt interp1d self n_Sub n_Space file
           TopDBR n ;;
   ret (fst st))
  = Simulate coh_tmm loadtxt interp1d self n_Sub n_Space file n.
Proof.
  intros H0 Hpg Htg.
  pose proof (make_d_list_parts_zero self _ _ H0 Htg) as Ed.
  split; [exact Ed |]. split.
  { intros m. rewrite (make_n_list_parts_zero _ _ _ _ _ _ H0 Hpg).
    destruct (make_n_list self m n_Space n_Sub) as [e | [a b]];
      reflexivity. }
  unfold SimulateParts, Simulate. destruct file as [f |].
  - destruct (loadtxt (f ++ ".csv")) as [e | data]; simpl; [reflexivity |].
    destruct (interp1d _ _) as [e | n_func]; simpl; [reflexivity |].
    destruct (table_grid _) as [e | wav]; simpl; [reflexivity |].
    rewrite Ed.
    destruct (make_d_list self) as [e | d]; simpl; [reflexivity |].
    rewrite <- (table_loop_parts_zero self TopDBR pgTop n_func n_Space
                  n_Sub d wav H0 Hpg (nPor self) (nPor TopDBR)
                  (n_list self) []).
    destruct (table_loop_parts _ _ _ _ _ _ _ _ _)
      as [e | [[[np npTop] nl] rn]]; reflexivity.
  - destruct (linspace (Fin 200) (Fin 1000) 800) as [e | wav]; simpl;
      [reflexivity |].
    rewrite Ed.
    destruct (make_d_list self) as [e | d]; simpl; [reflexivity |].
    rewrite (make_n_list_parts_zero _ _ _ _ _ _ H0 Hpg).
    destruct (make_n_list self n n_Space n_Sub) as [e | [n_Por nl]];
      simpl; [reflexivity |].
    destruct (const_loop coh_tmm nl d wav) as [e | rn]; reflexivity.
Qed.

End SimulationProperties.

Lemma SimulateParts_zero_top_witness :
  (st <- SimulateParts demo_coh_tmm demo_loadtxt demo_interp1d
           (graded (scenario (Fin (37 / 100)) 7 (Fin 3400)) 3 (Fin 1)
                   (IntOrder 1))
           (Fin (176 / 100)) (Fin 1) (Some "GaN_RefractiveIndex_Barker-o"%string)
           (graded (scenario (Fin (655 / 1000)) 0 (Fin 0)) 3 (Fin 1)
                   (IntOrder 1))
           (Fin (238 / 100)) ;;
   ret (fst st))
  = Simulate demo_coh_tmm demo_loadtxt demo_interp1d
      (graded (scenario (Fin (37 / 100)) 7 (Fin 3400)) 3 (Fin 1)
              (IntOrder 1))
      (Fin (176 / 100)) (Fin 1) (Some "GaN_RefractiveIndex_Barker-o"%string)
      (Fin (238 / 100)).
Proof.
  apply (SimulateParts_zero_top demo_coh_tmm demo_loadtxt demo_interp1d
           (graded (scenario (Fin (37 / 100)) 7 (Fin 3400)) 3 (Fin 1)
                   (IntOrder 1))
           (graded (scenario (Fin (655 / 1000)) 0 (Fin 0)) 3 (Fin 1)
                   (IntOrder 1))
           _ _ (Fin (176 / 100)) (Fin 1)
           (Some "GaN_RefractiveIndex_Barker-o"%string) (Fin (238 / 100))
           eq_refl eq_refl eq_refl).
Defined.

(** ** The wavelength grid of the dispersion-table branch *)

Lemma Rtrunc_IZR (z : Z) : (0 <= z)%Z -> Rtrunc (IZR z) = z.
Proof.
  intros Hz. unfold Rtrunc.
  destruct (Rle_dec 0 (IZR z)) as [_ | H].
  - symmetry. apply Int_part_spec. lra.
  - elim H. now apply IZR_le.
Qed.

Lemma arange_nth (n : Z) (i : nat) :
  (i < Z.to_nat n)%nat -> nth i (arange n) 0%Z = Z.of_nat i.
Proof.
  intros H. unfold arange.
  change 0%Z with (Z.of_nat 0). rewrite map_nth, seq_nth by assumption.
  reflexivity.
Qed.

(** [linspace] on more than one sample: the number of samples is [num],
    sample [i] is [i*step + start] and the last sample is [stop]. *)
Lemma linspace_spec (start stop : xreal) (num : Z) :
  (1 < num)%Z ->
  exists g,
    linspace start stop num = inr g /\
    length g = Z.to_nat num /\
    (forall i, (i < Z.to_nat num - 1)%nat ->
       nth i g NaN
       = xadd (xmul (xofZ (Z.of_nat i))
                    (xdiv (xsub stop start) (xofZ (num - 1)))) start) /\
    nth (Z.to_nat num - 1) g NaN = stop.
Proof.
  intros Hn. unfold linspace.
  destruct (Z.ltb_spec num 0); [lia |].
  destruct (Z.ltb_spec 0 (num - 1)); [| lia].
  destruct (Z.ltb_spec 1 num); [| lia].
  set (f := fun i => xadd (xmul (xofZ i)
                             (xdiv (xsub stop start) (xofZ (num - 1)))) start).
  assert (Ly : length (map f (arange num)) = Z.to_nat num)
    by now rewrite length_map, arange_length.
  assert (Lr : length (removelast (map f (arange num)))
               = (Z.to_nat num - 1)%nat).
  { rewrite removelast_firstn_len, length_firstn, Ly. lia. }
  eexists. split; [reflexivity |]. split; [| split].
  - rewrite length_app, Lr. simpl. lia.
  - intros i Hi. rewrite app_nth1 by lia.
    rewrite removelast_firstn_len, nth_firstn, Ly.
    destruct (Nat.ltb_spec i (Nat.pred (Z.to_nat num))); [| lia].
    rewrite (nth_indep _ NaN (f 0%Z)) by lia.
    rewrite map_nth, arange_nth by lia. reflexivity.
  - rewrite app_nth2 by lia. rewrite Lr, Nat.sub_diag. reflexivity.
Qed.

Lemma linspace_length (start stop : xreal) (num : Z) (g : list xreal) :
  linspace start stop num = inr g -> length g = Z.to_nat num.
Proof.
  destruct (Z.lt_ge_cases 1 num) as [H | H].
  - destruct (linspace_spec start stop num H) as (g' & -> & L & _).
    now intros [= <-].
  - unfold linspace. destruct (Z.ltb_spec num 0); [discriminate |].
    destruct (Z.ltb_spec 0 (num - 1)); [lia |].
    destruct (Z.ltb_spec 1 num); [lia |].
    intros [= <-]. now rewrite length_map, arange_length.
Qed.

(** The number of samples of the grid is [int(1000 - min(Wav))] whatever
    the upper end of the table. *)
Lemma table_grid_length (Wav : list xreal) (g : list xreal) :
  table_grid Wav = inr g ->
  exists m, py_min Wav = inr (Fin m) /\
            length g = Z.to_nat (Rtrunc (1000 - m)).
Proof.
  unfold table_grid.
  destruct (py_min Wav) as [e | m]; simpl; [discriminate |].
  destruct (py_last Wav) as [e | lastw]; simpl; [discriminate |].
  destruct m as [m | | |]; simpl; try discriminate.
  intros H. apply linspace_length in H.
  exists m. split; [reflexivity | exact H].
Qed.

(** C2, at the table of the third end-to-end scenario, spanning
    [0.3 .. 0.7] micrometres: the grid runs from [300] to [700] nm but has
    [int(1000 - 300) = 700] samples, not [401], and its step is [400/699]
    nm, not [1] nm. *)
Theorem table_grid_sample_count :
  exists g,
    table_grid (to_nm (map fst demo_table)) = inr g /\
    length g = 700%nat /\ length g <> 401%nat /\
    py_eq (nth 0 g NaN) (Fin 300) /\
    py_eq (nth 1 g NaN) (Fin (300 + 400 / 699)) /\
    ~ py_eq (nth 1 g NaN) (Fin 301) /\
    py_eq (nth 699 g NaN) (Fin 700).
Proof.
  destruct (linspace_spec (Fin (3 / 10 * 1000)) (Fin (7 / 10 * 1000)) 700
              ltac:(lia)) as (g & Eg & Lg & Hi & Hlast).
  exists g. split.
  - unfold table_grid, to_nm, demo_table. xcompute.
    unfold py_min2.
    rewrite !xltb_Fin_false by lra. rewrite xltb_Fin_true by lra.
    xcompute.
    replace (1000 + - (3 / 10 * 1000)) with (IZR 700) by lra.
    rewrite Rtrunc_IZR by lia. exact Eg.
  - assert (E1 : nth 1 g NaN = Fin (300 + 400 / 699)).
    { rewrite (Hi 1%nat) by (simpl; lia). xcompute. unfold xofZ.
      rewrite xdiv_Fin by lra. xcompute. f_equal. lra. }
    split; [rewrite Lg; reflexivity |].
    split; [rewrite Lg; discriminate |].
    split.
    { rewrite (Hi 0%nat) by (simpl; lia). xcompute. unfold xofZ.
      rewrite xdiv_Fin by lra. xcompute.
      split; [f_equal; lra | discriminate]. }
    split; [rewrite E1; split; [reflexivity | discriminate] |].
    split.
    { rewrite E1. intros [E _]. injection E as E. lra. }
    change 699%nat with (Z.to_nat 700 - 1)%nat. rewrite Hlast.
    split; [f_equal; lra | discriminate].
Qed.

(** ** The lists that a run stores on the object *)

Section StoredLists.

Variable coh_tmm :
  polarization -> list xreal -> list xreal -> xreal -> xreal -> result xreal.
Variable loadtxt : string -> result (list (xreal * xreal)).
Variable interp1d :
  list xreal -> list xreal -> result (xreal -> result xreal).

(** A successful constant-index run of [Simulate] stores the lists of
    [make_d_list] and [make_n_list], [800] wavelengths and as many
    reflectances. *)
Lemma Simulate_const_lists (self self' : DBR) (n_Sub n_Space n : xreal) :
  Simulate coh_tmm loadtxt interp1d self n_Sub n_Space None n = inr self' ->
  exists d n_Por nl wav rn,
    make_d_list self = inr d /\
    make_n_list self n n_Space n_Sub = inr (n_Por, nl) /\
    d_list self' = Some d /\ n_list self' = Some nl /\
    Wav self' = Some wav /\ Rnorm self' = Some rn /\
    length wav = 800%nat /\ length rn = 800%nat.
Proof.
  unfold Simulate.
  destruct (linspace_spec (Fin 200) (Fin 1000) 800 ltac:(lia))
    as (wav & -> & Lw & _). simpl bind.
  destruct (make_d_list self) as [e | d]; simpl; [discriminate |].
  destruct (make_n_list self n n_Space n_Sub) as [e | [n_Por nl]];
    simpl; [discriminate |].
  destruct (const_loop coh_tmm nl d wav) as [e | rn] eqn:Ern; simpl;
    [discriminate |].
  intros [= <-]. exists d, n_Por, nl, wav, rn.
  change (Z.to_nat 800) with 800%nat in Lw.
  unfold const_loop in Ern. apply mapM_length in Ern.
  repeat split; congruence.
Qed.

(** The same for [SimulateParts]. *)
Lemma SimulateParts_const_lists (self TopDBR self' top' : DBR)
    (n_Sub n_Space n : xreal) :
  SimulateParts coh_tmm loadtxt interp1d self n_Sub n_Space None TopDBR n
  = inr (self', top') ->
  exists d n_Por n_PorTop nl,
    make_d_list_parts self TopDBR = inr d /\
    make_n_list_parts self TopDBR n n_Space n_Sub
    = inr (n_Por, n_PorTop, nl) /\
    d_list self' = Some d /\ n_list self' = Some nl /\ top' = TopDBR.
Proof.
  unfold SimulateParts.
  destruct (linspace (Fin 200) (Fin 1000) 800) as [e | wav]; simpl;
    [discriminate |].
  destruct (make_d_list_parts self TopDBR) as [e | d]; simpl;
    [discriminate |].
  destruct (make_n_list_parts self TopDBR n n_Space n_Sub)
    as [e | [[n_Por n_PorTop] nl]]; simpl; [discriminate |].
  destruct (const_loop coh_tmm nl d wav) as [e | rn]; simpl;
    [discriminate |].
  intros [= <- <-]. exists d, n_Por, n_PorTop, nl. repeat split.
Qed.

End StoredLists.

(** * Further properties of the code *)

(** ** The shape of the graded profile *)

Lemma rev_map_seq {A} (g : nat -> A) (m : nat) :
  rev (map g (seq 0 m)) = map (fun i => g (m - 1 - i)%nat) (seq 0 m).
Proof.
  induction m as [| m IH]; [reflexivity |].
  rewrite seq_S at 1. rewrite map_app, rev_app_distr. simpl rev. simpl app.
  rewrite IH. simpl seq. simpl map.
  f_equal; [f_equal; lia |].
  rewrite <- seq_shift, map_map. apply map_ext_in.
  intros i Hi. apply in_seq in Hi. f_equal. lia.
Qed.

Lemma arange_succ (h : Z) :
  (1 <= h)%Z -> arange h = arange (h - 1) ++ [(h - 1)%Z].
Proof.
  intros Hh. unfold arange.
  replace (Z.to_nat h) with (S (Z.to_nat (h - 1))) by lia.
  rewrite seq_S, map_app. simpl. f_equal. f_equal. lia.
Qed.

(** The falling half is the rising half without its last value, read
    backwards. *)
Lemma second_half_rev {A} (f : Z -> A) (h : Z) :
  (1 <= h)%Z ->
  map (fun j => f (h - j - 2)%Z) (arange (h - 1))
  = rev (map f (arange (h - 1))).
Proof.
  intros Hh. unfold arange. rewrite !map_map.
  rewrite (rev_map_seq (fun i => f (Z.of_nat i))).
  apply map_ext_in. intros i Hi. apply in_seq in Hi. f_equal. lia.
Qed.

Lemma Por_Grad_success_valid (N : Z) (Factor : xreal) (Order : exponent)
    (raw : list xreal) :
  Z.odd N = true -> (1 <= N)%Z ->
  Por_Grad N Factor Order = inr raw -> valid_exponent Order.
Proof.
  intros Hodd HN E. destruct (halfN_odd N Hodd HN) as [Hh _].
  destruct (valid_exponent_dec Order) as [Hv | Hv]; [assumption |].
  rewrite (Por_Grad_invalid N Factor Order Hv Hh) in E. discriminate.
Qed.

Lemma Por_Grad_palindrome (N : Z) (Factor : xreal) (Order : exponent)
    (raw : list xreal) :
  Z.odd N = true -> (1 <= N)%Z ->
  Por_Grad N Factor Order = inr raw -> rev raw = raw.
Proof.
  intros Hodd HN E. destruct (halfN_odd N Hodd HN) as [Hh _].
  pose proof (Por_Grad_success_valid _ _ _ _ Hodd HN E) as Hv.
  rewrite (Por_Grad_valid N Factor Order Hv Hh) in E.
  injection E as <-.
  rewrite (second_half_rev (raw_val Factor Order)) by assumption.
  rewrite (arange_succ _ Hh), map_app. simpl map.
  rewrite !rev_app_distr, rev_involutive. simpl.
  now rewrite <- app_assoc.
Qed.

(** Whenever [MakeGrades] returns, the porosity profile reads the same from
    both ends: sub-layer [k] from the top and sub-layer [k] from the bottom
    of a porous layer have the same porosity. *)
Theorem Por_Graded_symmetric (self self' : DBR) (N : Z) (Factor : xreal)
    (Order : exponent) (Phi_arg : xreal) :
  MakeGrades self N Factor Order Phi_arg = inr self' ->
  exists pg,
    Por_Graded self' = Some pg /\ rev pg = pg /\
    forall k, (k < Z.to_nat N)%nat ->
      nth k pg NaN = nth (Z.to_nat N - 1 - k) pg NaN.
Proof.
  intros H.
  apply MakeGrades_inv in H as (Hodd & HN & raw & E & L & ->).
  pose proof (Por_Grad_palindrome _ _ _ _ Hodd HN E) as Hrev.
  eexists. split; [reflexivity |].
  assert (Hp : rev (map (fun x => xdiv x (scale_factor self N raw)) raw)
               = map (fun x => xdiv x (scale_factor self N raw)) raw).
  { now rewrite <- map_rev, Hrev. }
  split; [exact Hp |].
  intros k Hk. rewrite <- Hp at 1.
  rewrite rev_nth by (rewrite length_map; lia).
  rewrite length_map, L. f_equal. lia.
Qed.

Lemma Por_Graded_symmetric_witness :
  exists pg,
    Por_Graded (graded (scenario (Fin (37 / 100)) 12 (Fin 3400)) 3 (Fin 1)
                       (IntOrder 1)) = Some pg /\
    rev pg = pg.
Proof.
  destruct (Por_Graded_symmetric (scenario (Fin (37 / 100)) 12 (Fin 3400))
              (graded (scenario (Fin (37 / 100)) 12 (Fin 3400)) 3 (Fin 1)
                      (IntOrder 1))
              3 (Fin 1) (IntOrder 1) (Fin (37 / 100)) eq_refl)
    as (pg & H1 & H2 & _).
  exists pg. split; assumption.
Defined.

(** *** A factor of zero *)

Lemma Forall_eq_repeat {A} (c : A) (l : list A) :
  Forall (fun x => x = c) l -> l = repeat c (length l).
Proof.
  induction 1 as [| x l -> _ IH]; simpl; [reflexivity | now rewrite <- IH].
Qed.

Lemma Por_Grad_zero_factor (N k : Z) :
  Z.odd N = true -> (1 <= N)%Z -> (0 <= k)%Z ->
  Por_Grad N (Fin 0) (IntOrder k) = inr (repeat (Fin 1) (Z.to_nat N)).
Proof.
  intros Hodd HN Hk. destruct (halfN_odd N Hodd HN) as [Hh _].
  pose proof (Por_Grad_valid N (Fin 0) (IntOrder k) Hk Hh) as E.
  unfold ret in E.
  match type of E with _ = inr ?l =>
    assert (HF : Forall (fun x => x = Fin 1) l)
  end.
  { apply Forall_app. split; apply Forall_forall; intros x Hx;
      apply in_map_iff in Hx as [j [<- _]];
      unfold raw_val, pow_val, xofZ; simpl; f_equal; lra. }
  pose proof (Por_Grad_length _ _ _ _ Hodd HN E) as L.
  apply Forall_eq_repeat in HF. rewrite L in HF. now rewrite <- HF.
Qed.

(** With a factor of [0] and an integer exponent that is not negative there
    is no grading: for an odd grade count of at least [1] every raw value is
    [1] and all the porosity values are one and the same number, [1] over
    the scale factor. *)
Theorem MakeGrades_zero_factor_uniform (self : DBR) (N k : Z)
    (Phi_arg : xreal) :
  Z.odd N = true -> (1 <= N)%Z -> (0 <= k)%Z ->
  exists self' v,
    MakeGrades self N (Fin 0) (IntOrder k) Phi_arg = inr self' /\
    Por_Graded self' = Some (repeat v (Z.to_nat N)) /\
    v = xdiv (Fin 1)
             (xdiv (xsum (repeat (Fin 1) (Z.to_nat N)))
                   (xmul (xofZ N) (Phi self))).
Proof.
  intros Hodd HN Hk.
  pose proof (Por_Grad_zero_factor N k Hodd HN Hk) as E.
  rewrite (MakeGrades_odd _ _ _ _ _ _ Hodd E).
  eexists _, _. split; [reflexivity |].
  rewrite Por_Graded_set_grades, map_repeat.
  split; reflexivity.
Qed.

Lemma MakeGrades_zero_factor_uniform_witness :
  exists self' v,
    MakeGrades (scenario (Fin (37 / 100)) 12 (Fin 3400)) 11 (Fin 0)
               (IntOrder 2) (Fin (37 / 100)) = inr self' /\
    Por_Graded self' = Some (repeat v 11).
Proof.
  destruct (MakeGrades_zero_factor_uniform
              (scenario (Fin (37 / 100)) 12 (Fin 3400)) 11 2
              (Fin (37 / 100)) eq_refl ltac:(lia) ltac:(lia))
    as (self' & v & E & Hpg & _).
  exists self', v. split; assumption.
Defined.

(** *** Grading again *)

(** A later call of [MakeGrades] replaces the profile of an earlier one and
    nothing else: grading an already graded object gives what grading the
    original object gives (in particular, repeating a call changes
    nothing), and a grading leaves the period, the layer thicknesses, the
    porosity, the repeat count and the template thickness as they were. *)
Theorem MakeGrades_again (self s1 : DBR) (N1 N2 : Z) (F1 F2 : xreal)
    (O1 O2 : exponent) (P1 P2 : xreal) :
  MakeGrades self N1 F1 O1 P1 = inr s1 ->
  MakeGrades s1 N2 F2 O2 P2 = MakeGrades self N2 F2 O2 P2 /\
  MakeGrades s1 N1 F1 O1 P1 = inr s1 /\
  (Period s1, T_Rat s1, T_Por s1, T_GaN s1, Phi s1, NLayers s1, T_Temp s1)
  = (Period self, T_Rat self, T_Por self, T_GaN self, Phi self,
     NLayers self, T_Temp self) /\
  observables s1 = observables self /\ nPor s1 = nPor self.
Proof.
  intros H.
  pose proof H as H'.
  apply MakeGrades_inv in H' as (_ & _ & raw & _ & _ & E).
  assert (G : forall N F O P,
            MakeGrades s1 N F O P = MakeGrades self N F O P).
  { intros N F O P. rewrite E. unfold MakeGrades.
    destruct (N mod 2 =? 0)%Z; [reflexivity |].
    destruct (Por_Grad N F O) as [e | raw']; reflexivity. }
  split; [apply G |]. split; [now rewrite G |].
  rewrite E. repeat split.
Qed.

Lemma MakeGrades_again_witness :
  MakeGrades (graded (scenario (Fin (37 / 100)) 12 (Fin 3400)) 3 (Fin 1)
                     (IntOrder 1))
             11 (Fin 1) (FloatOrder (1 / 8)) (Fin (37 / 100))
  = MakeGrades (scenario (Fin (37 / 100)) 12 (Fin 3400))
               11 (Fin 1) (FloatOrder (1 / 8)) (Fin (37 / 100)).
Proof.
  apply (MakeGrades_again (scenario (Fin (37 / 100)) 12 (Fin 3400))
           (graded (scenario (Fin (37 / 100)) 12 (Fin 3400)) 3 (Fin 1)
                   (IntOrder 1))
           3 11 (Fin 1) (Fin 1) (IntOrder 1) (FloatOrder (1 / 8))
           (Fin (37 / 100)) (Fin (37 / 100)) eq_refl).
Defined.

(** ** Running the solver *)

Lemma mapM_total {A B} (f : A -> result B) (l : list A) :
  (forall a, In a l -> exists b, f a = inr b) ->
  exists bs, mapM f l = inr bs.
Proof.
  induction l as [| a l IH]; intros H; simpl.
  - now exists [].
  - destruct (H a (or_introl eq_refl)) as [b ->]. simpl.
    destruct IH as [bs ->]; [intros x Hx; apply H; now right |].
    now exists (b :: bs).
Qed.

Lemma mapM_nth {A B} (f : A -> result B) (l : list A) (bs : list B)
    (da : A) (db : B) :
  mapM f l = inr bs ->
  forall i, (i < length l)%nat -> f (nth i l da) = inr (nth i bs db).
Proof.
  revert bs. induction l as [| a l IH]; intros bs; simpl.
  - intros _ i Hi. lia.
  - destruct (f a) as [e | b] eqn:Ea; simpl; [discriminate |].
    destruct (mapM f l) as [e | bs'] eqn:El; simpl; [discriminate |].
    intros [= <-] [| i] Hi; [exact Ea |].
    simpl. apply IH; [reflexivity | lia].
Qed.

(** The first element on which [f] raises decides the outcome. *)
Lemma mapM_first_error {A B} (f : A -> result B) (l : list A) (da : A)
    (i : nat) (e : exn) :
  (i < length l)%nat ->
  (forall k, (k < i)%nat -> exists b, f (nth k l da) = inr b) ->
  f (nth i l da) = inl e ->
  mapM f l = inl e.
Proof.
  revert i. induction l as [| a l IH]; intros i Hi Hbefore Hat; simpl in *.
  - lia.
  - destruct i as [| i].
    + now rewrite Hat.
    + destruct (Hbefore 0%nat ltac:(lia)) as [b ->]. simpl.
      rewrite (IH i); [reflexivity | lia | | assumption].
      intros k Hk. apply (Hbefore (S k)). lia.
Qed.

Section Runs.

Variable coh_tmm :
  polarization -> list xreal -> list xreal -> xreal -> xreal -> result xreal.
Variable loadtxt : string -> result (list (xreal * xreal)).
Variable interp1d :
  list xreal -> list xreal -> result (xreal -> result xreal).

(** Grading is a precondition of every run: on an object that has no
    thickness profile yet [Simulate] raises an [AttributeError] in the
    constant-index branch, and in the table branch as soon as the table is
    read and its grid built; [SimulateParts] raises it when either of the
    two structures has none. *)
Theorem Simulate_needs_grading (self TopDBR : DBR) (n_Sub n_Space n : xreal) :
  (T_Graded self = None ->
   Simulate coh_tmm loadtxt interp1d self n_Sub n_Space None n
   = inl AttributeError /\
   forall f data n_func wav,
     loadtxt (f ++ ".csv")%string = inr data ->
     interp1d (to_nm (map fst data)) (map snd data) = inr n_func ->
     table_grid (to_nm (map fst data)) = inr wav ->
     Simulate coh_tmm loadtxt interp1d self n_Sub n_Space (Some f) n
     = inl AttributeError) /\
  (T_Graded self = None \/ T_Graded TopDBR = None ->
   SimulateParts coh_tmm loadtxt interp1d self n_Sub n_Space None TopDBR n
   = inl AttributeError).
Proof.
  destruct (linspace_spec (Fin 200) (Fin 1000) 800 ltac:(lia))
    as (wav0 & Ew & _).
  split.
  - intros H. split.
    + unfold Simulate. rewrite Ew. simpl bind.
      unfold make_d_list. rewrite H. reflexivity.
    + intros f data n_func wav El Ei Eg.
      unfold Simulate. rewrite El. simpl bind. rewrite Ei. simpl bind.
      rewrite Eg. simpl bind. unfold make_d_list. rewrite H. reflexivity.
  - intros H. unfold SimulateParts. rewrite Ew. simpl bind.
    unfold make_d_list_parts.
    destruct (T_Graded self) as [tg |]; simpl; [| reflexivity].
    destruct H as [H | H]; [discriminate | rewrite H; reflexivity].
Qed.

(** When the solver returns for every wavelength, a constant-index run on a
    graded object returns: it stores [800] wavelengths from [200] to [1000]
    nm, [800/799] nm apart, the thickness list and the index list of the
    stack, and one reflectance per wavelength, the solver's answer for that
    wavelength on those two lists; the profile and the log of graded
    indices are left as they were. *)
Theorem Simulate_constant_run (self : DBR) (pg tg : list xreal)
    (n_Sub n_Space n : xreal) (d nl n_Por : list xreal) :
  Por_Graded self = Some pg -> T_Graded self = Some tg ->
  make_d_list self = inr d ->
  make_n_list self n n_Space n_Sub = inr (n_Por, nl) ->
  (forall Lambda, exists r, coh_tmm s_pol nl d (Fin 0) Lambda = inr r) ->
  exists self' wav rn,
    Simulate coh_tmm loadtxt interp1d self n_Sub n_Space None n = inr self' /\
    observables self' = (Some wav, Some d, Some nl, Some rn) /\
    length wav = 800%nat /\ length rn = 800%nat /\
    (forall i, (i < 799)%nat ->
       nth i wav NaN = Fin (200 + INR i * (800 / 799))) /\
    nth 799 wav NaN = Fin 1000 /\
    (forall i, (i < 800)%nat ->
       coh_tmm s_pol nl d (Fin 0) (nth i wav NaN) = inr (nth i rn NaN)) /\
    Por_Graded self' = Some pg /\ T_Graded self' = Some tg /\
    nPor self' = nPor self.
Proof.
  intros Hpg Htg Ed En Hsolve.
  destruct (linspace_spec (Fin 200) (Fin 1000) 800 ltac:(lia))
    as (wav & Ew & Lw & Hi & Hlast).
  change (Z.to_nat 800) with 800%nat in *.
  destruct (mapM_total (fun Lambda => coh_tmm s_pol nl d (Fin 0) Lambda) wav)
    as [rn Ern]; [intros a _; apply Hsolve |].
  unfold Simulate. rewrite Ew. simpl bind. rewrite Ed. simpl bind.
  rewrite En. simpl bind. unfold const_loop. rewrite Ern. simpl bind.
  eexists _, wav, rn. split; [reflexivity |].
  split; [reflexivity |]. split; [assumption |].
  split; [apply mapM_length in Ern; congruence |].
  split; [| split; [exact Hlast | split]].
  - intros i Hlt. rewrite Hi by (simpl; lia).
    change (800 - 1)%Z with 799%Z.
    unfold xofZ. simpl xsub. rewrite xdiv_Fin by lra. simpl.
    f_equal. rewrite <- INR_IZR_INZ. field.
  - intros i Hlt. apply (mapM_nth _ _ _ NaN NaN Ern). lia.
  - repeat split; assumption.
Qed.

(** The solver's first exception ends the run: if it returns for the
    wavelengths before position [i] of the grid and raises at position [i],
    the run raises that exception and stores nothing. *)
Theorem Simulate_constant_solver_error (self : DBR)
    (n_Sub n_Space n : xreal) (d nl n_Por wav : list xreal)
    (i : nat) (e : exn) :
  make_d_list self = inr d ->
  make_n_list self n n_Space n_Sub = inr (n_Por, nl) ->
  linspace (Fin 200) (Fin 1000) 800 = inr wav ->
  (i < 800)%nat ->
  (forall k, (k < i)%nat ->
     exists r, coh_tmm s_pol nl d (Fin 0) (nth k wav NaN) = inr r) ->
  coh_tmm s_pol nl d (Fin 0) (nth i wav NaN) = inl e ->
  Simulate coh_tmm loadtxt interp1d self n_Sub n_Space None n = inl e.
Proof.
  intros Ed En Ew Hi Hbefore Hat.
  pose proof (linspace_length _ _ _ _ Ew) as Lw.
  change (Z.to_nat 800) with 800%nat in Lw.
  unfold Simulate. rewrite Ew. simpl bind. rewrite Ed. simpl bind.
  rewrite En. simpl bind. unfold const_loop.
  rewrite (mapM_first_error _ wav NaN i e); [reflexivity | lia | |];
    assumption.
Qed.

End Runs.

Lemma Simulate_needs_grading_witness :
  Simulate demo_coh_tmm demo_loadtxt demo_interp1d
           (scenario (Fin (37 / 100)) 12 (Fin 3400))
           (Fin (176 / 100)) (Fin 1) None (Fin (238 / 100))
  = inl AttributeError /\
  SimulateParts demo_coh_tmm demo_loadtxt demo_interp1d
           (graded (scenario (Fin (37 / 100)) 7 (Fin 3400)) 3 (Fin 1)
                   (IntOrder 1))
           (Fin (176 / 100)) (Fin 1) None
           (scenario (Fin (655 / 1000)) 5 (Fin 0)) (Fin (238 / 100))
  = inl AttributeError.
Proof.
  split.
  - apply (proj1 (Simulate_needs_grading demo_coh_tmm demo_loadtxt
                    demo_interp1d (scenario (Fin (37 / 100)) 12 (Fin 3400))
                    (scenario (Fin (37 / 100)) 12 (Fin 3400))
                    (Fin (176 / 100)) (Fin 1) (Fin (238 / 100)))).
    reflexivity.
  - apply (proj2 (Simulate_needs_grading demo_coh_tmm demo_loadtxt
                    demo_interp1d
                    (graded (scenario (Fin (37 / 100)) 7 (Fin 3400)) 3
                            (Fin 1) (IntOrder 1))
                    (scenario (Fin (655 / 1000)) 5 (Fin 0))
                    (Fin (176 / 100)) (Fin 1) (Fin (238 / 100)))).
    right. reflexivity.
Defined.

Lemma Simulate_constant_run_witness :
  exists self' wav rn,
    Simulate demo_coh_tmm demo_loadtxt demo_interp1d
             (graded (scenario (Fin (37 / 100)) 12 (Fin 3400)) 3 (Fin 1)
                     (IntOrder 1))
             (Fin (176 / 100)) (Fin 1) None (Fin (238 / 100)) = inr self' /\
    Wav self' = Some wav /\ Rnorm self' = Some rn /\
    length wav = 800%nat /\ length rn = 800%nat /\
    nth 799 wav NaN = Fin 1000.
Proof.
  destruct (Simulate_constant_run demo_coh_tmm demo_loadtxt demo_interp1d
              (graded (scenario (Fin (37 / 100)) 12 (Fin 3400)) 3 (Fin 1)
                      (IntOrder 1))
              _ _ (Fin (176 / 100)) (Fin 1) (Fin (238 / 100)) _ _ _
              eq_refl eq_refl eq_refl eq_refl
              (fun _ => ex_intro _ (Fin (1 / 2)) eq_refl))
    as (self' & wav & rn & E & Ho & Lw & Lr & _ & Hl & _).
  exists self', wav, rn.
  unfold observables in Ho. injection Ho as Hw _ _ Hr.
  repeat split; assumption.
Defined.

Lemma Simulate_constant_solver_error_witness :
  Simulate failing_coh_tmm demo_loadtxt demo_interp1d
           (graded (scenario (Fin (37 / 100)) 12 (Fin 3400)) 3 (Fin 1)
                   (IntOrder 1))
           (Fin (176 / 100)) (Fin 1) None (Fin (238 / 100))
  = inl ValueError.
Proof.
  destruct (linspace_spec (Fin 200) (Fin 1000) 800 ltac:(lia))
    as (wav & Ew & _).
  apply (Simulate_constant_solver_error failing_coh_tmm demo_loadtxt
           demo_interp1d
           (graded (scenario (Fin (37 / 100)) 12 (Fin 3400)) 3 (Fin 1)
                   (IntOrder 1))
           (Fin (176 / 100)) (Fin 1) (Fin (238 / 100)) _ _ _ wav 0
           ValueError eq_refl eq_refl Ew).
  - lia.
  - intros k Hk. lia.
  - reflexivity.
Defined.

(** ** The grid of the table branch, in general *)

Lemma py_min_Fin (ws : list R) (w0 : R) :
  exists m,
    fold_left py_min2 (map Fin ws) (Fin w0) = Fin m /\
    In m (w0 :: ws) /\ forall w, In w (w0 :: ws) -> m <= w.
Proof.
  revert w0. induction ws as [| w ws IH]; intros w0.
  - exists w0. simpl. split; [reflexivity |].
    split; [now left |]. intros w [<- | []]. lra.
  - simpl fold_left. unfold py_min2 at 2.
    destruct (Rlt_dec w w0) as [L | L].
    + rewrite xltb_Fin_true by assumption.
      destruct (IH w) as (m & E & Hin & Hmin).
      exists m. split; [exact E |]. split.
      * right. exact Hin.
      * intros x [<- | Hx]; [| now apply Hmin].
        specialize (Hmin w (or_introl eq_refl)). lra.
    + rewrite xltb_Fin_false by lra.
      destruct (IH w0) as (m & E & Hin & Hmin).
      exists m. split; [exact E |]. split.
      * destruct Hin as [<- | Hin]; [now left | right; now right].
      * intros x [<- | [<- | Hx]].
        -- apply Hmin. now left.
        -- specialize (Hmin w0 (or_introl eq_refl)). lra.
        -- apply Hmin. now right.
Qed.

Lemma last_map_Fin (ws : list R) (w0 : R) :
  last (map Fin ws) (Fin w0) = Fin (last ws w0) /\ In (last ws w0) (w0 :: ws).
Proof.
  revert w0. induction ws as [| w ws IH]; intros w0.
  - split; [reflexivity | now left].
  - destruct ws as [| w' ws'].
    + split; [reflexivity | right; now left].
    + destruct (IH w0) as [E Hin].
      split.
      * change (last (map Fin (w :: w' :: ws')) (Fin w0))
          with (last (map Fin (w' :: ws')) (Fin w0)).
        rewrite E. reflexivity.
      * change (last (w :: w' :: ws') w0) with (last (w' :: ws') w0).
        destruct Hin as [Hin | Hin]; [now left | right; now right].
Qed.

Lemma Rtrunc_le (r : R) : (1 <= Rtrunc r)%Z -> IZR (Rtrunc r) <= r.
Proof.
  unfold Rtrunc. destruct (Rle_dec 0 r) as [H | H]; intros Hz.
  - apply base_Int_part.
  - exfalso. destruct (base_Int_part (- r)) as [_ Hb].
    assert (Hc : -1 < IZR (Int_part (- r))) by lra.
    apply (lt_IZR (-1)) in Hc. lia.
Qed.

Lemma Rtrunc_negative (r : R) : r <= -1 -> (Rtrunc r < 0)%Z.
Proof.
  intros Hr. unfold Rtrunc. destruct (Rle_dec 0 r) as [H | H]; [lra |].
  destruct (base_Int_part (- r)) as [_ Hb].
  assert (Hc : 0 < IZR (Int_part (- r))) by lra.
  apply (lt_IZR 0) in Hc. lia.
Qed.

(** Every sample of [linspace] lies between its two ends. *)
Lemma linspace_bounds (m s : R) (num : Z) (g : list xreal) :
  m <= s -> linspace (Fin m) (Fin s) num = inr g ->
  forall x, In x g -> exists r, x = Fin r /\ m <= r <= s.
Proof.
  intros Hms H x Hx.
  destruct (Z.lt_ge_cases 1 num) as [Hn | Hn].
  - destruct (linspace_spec (Fin m) (Fin s) num Hn)
      as (g' & E & L & Hi & Hlast).
    rewrite E in H. injection H as <-.
    destruct (In_nth _ _ NaN Hx) as (i & Hlt & <-).
    destruct (Nat.eq_dec i (Z.to_nat num - 1)) as [-> | Hne].
    + rewrite Hlast. exists s. split; [reflexivity | lra].
    + rewrite Hi by lia.
      assert (Hd : 0 < IZR (num - 1)) by (apply IZR_lt; lia).
      unfold xofZ. simpl xsub. rewrite xdiv_Fin by lra. simpl.
      eexists. split; [reflexivity |].
      assert (Hi0 : 0 <= IZR (Z.of_nat i)) by (apply IZR_le; lia).
      assert (Hi1 : IZR (Z.of_nat i) <= IZR (num - 1))
        by (apply IZR_le; lia).
      assert (Ht : 0 <= (s + - m) / IZR (num - 1)).
      { apply Rmult_le_pos; [lra |]. left. now apply Rinv_0_lt_compat. }
      assert (Hfull : IZR (num - 1) * ((s + - m) / IZR (num - 1)) = s + - m)
        by (field; lra).
      pose proof (Rmult_le_pos _ _ Hi0 Ht).
      pose proof (Rmult_le_compat_r _ _ _ Ht Hi1). lra.
  - revert H. unfold linspace.
    destruct (Z.ltb_spec num 0); [discriminate |].
    destruct (Z.ltb_spec 0 (num - 1)); [lia |].
    destruct (Z.ltb_spec 1 num); [lia |].
    intros [= <-]. apply in_map_iff in Hx as (i & <- & Hi).
    apply arange_In in Hi. assert (i = 0%Z) as -> by lia.
    simpl. eexists. split; [reflexivity | lra].
Qed.

(** The grid never leaves the table.  For a table of finite wavelengths
    (in nm) on which the grid is built, the number of samples is
    [int(1000 - min)], and every sample is a finite wavelength between the
    smallest wavelength of the table and its last one, and at most [1000]:
    the interpolation is never asked for a wavelength outside the table. *)
Theorem table_grid_within_table (ws : list R) (g : list xreal) :
  table_grid (map Fin ws) = inr g ->
  exists m l,
    In m ws /\ (forall w, In w ws -> m <= w) /\ In l ws /\
    py_last (map Fin ws) = inr (Fin l) /\
    length g = Z.to_nat (Rtrunc (1000 - m)) /\
    forall x, In x g -> exists r, x = Fin r /\ m <= r /\ r <= l /\ r <= 1000.
Proof.
  destruct ws as [| w0 ws]; [discriminate |].
  intros H.
  destruct (table_grid_length _ _ H) as (m' & Em' & Lg).
  destruct (py_min_Fin ws w0) as (m & Em & Hin & Hmin).
  destruct (last_map_Fin ws w0) as [El Hl].
  assert (m' = m) as ->.
  { simpl in Em'. rewrite Em in Em'. now injection Em' as ->. }
  exists m, (last ws w0).
  split; [assumption |]. split; [assumption |]. split; [assumption |].
  split; [simpl; now rewrite El |]. split; [assumption |].
  intros x Hx.
  assert (Hnum : (1 <= Rtrunc (1000 - m))%Z).
  { destruct g as [| y g]; [destruct Hx |]. simpl in Lg. lia. }
  pose proof (Rtrunc_le _ Hnum) as Hle.
  assert (H1 : 1 <= IZR (Rtrunc (1000 - m))) by now apply IZR_pos.
  pose proof (Hmin _ Hl) as Hml.
  revert H. unfold table_grid. simpl py_min. simpl py_last.
  rewrite Em, El. simpl bind.
  set (s := if Rlt_dec (last ws w0) 1000 then last ws w0 else 1000).
  assert (Es : py_min2 (Fin 1000) (Fin (last ws w0)) = Fin s).
  { unfold py_min2, s. simpl. now destruct (Rlt_dec (last ws w0) 1000). }
  rewrite Es. intros H.
  assert (Hs : m <= s /\ s <= last ws w0 /\ s <= 1000).
  { unfold s. destruct (Rlt_dec (last ws w0) 1000); lra. }
  destruct (linspace_bounds m s _ g (proj1 Hs) H x Hx) as (r & -> & Hr).
  exists r. split; [reflexivity | lra].
Qed.

Lemma table_grid_within_table_witness :
  exists g m l,
    table_grid (map Fin [300; 500; 700]) = inr g /\
    In m [300; 500; 700] /\ In l [300; 500; 700] /\
    length g = Z.to_nat (Rtrunc (1000 - m)) /\
    forall x, In x g -> exists r, x = Fin r /\ m <= r /\ r <= l /\ r <= 1000.
Proof.
  destruct (linspace_spec (Fin 300) (Fin 700) 700 ltac:(lia))
    as (g & Eg & _).
  assert (E : table_grid (map Fin [300; 500; 700]) = inr g).
  { unfold table_grid. xcompute. unfold py_min2.
    rewrite !xltb_Fin_false by lra. rewrite xltb_Fin_true by lra.
    xcompute. replace (1000 + - (300)) with (IZR 700) by lra.
    rewrite Rtrunc_IZR by lia. exact Eg. }
  destruct (table_grid_within_table [300; 500; 700] g E)
    as (m & l & Hm & _ & Hl & _ & Lg & Hb).
  exists g, m, l. repeat split; assumption.
Defined.

(** A table that starts beyond [1000] nm: from [1001] nm on the run raises
    a [ValueError] (a negative number of samples); an empty table raises a
    [ValueError] too. *)
Theorem table_grid_beyond_range (ws : list R) :
  table_grid [] = inl ValueError /\
  (ws <> [] -> (forall w, In w ws -> 1001 <= w) ->
   table_grid (map Fin ws) = inl ValueError).
Proof.
  split; [reflexivity |].
  intros Hne Hall. destruct ws as [| w0 ws]; [congruence |].
  destruct (py_min_Fin ws w0) as (m & Em & Hin & _).
  destruct (last_map_Fin ws w0) as [El _].
  unfold table_grid. simpl py_min. simpl py_last. rewrite Em, El.
  simpl bind.
  pose proof (Hall m Hin) as Hm.
  pose proof (Rtrunc_negative (1000 + - m) ltac:(lra)) as Hneg.
  unfold linspace.
  destruct (Z.ltb_spec (Rtrunc (1000 + - m)) 0); [reflexivity | lia].
Qed.

Lemma table_grid_beyond_range_witness :
  table_grid (map Fin [1200; 1500]) = inl ValueError.
Proof.
  apply (proj2 (table_grid_beyond_range [1200; 1500])).
  - discriminate.
  - intros w [<- | [<- | []]]; lra.
Defined.

(** ** A run of the table branch *)

Section TableRuns.

Variable coh_tmm :
  polarization -> list xreal -> list xreal -> xreal -> xreal -> result xreal.
Variable loadtxt : string -> result (list (xreal * xreal)).
Variable interp1d :
  list xreal -> list xreal -> result (xreal -> result xreal).

(** What the per-wavelength loop adds to its state when it completes: one
    logged list of graded indices and one reflectance per wavelength, each
    from the index interpolated at that wavelength. *)
Lemma table_loop_spec (self : DBR) (n_func : xreal -> result xreal)
    (n_Space n_Sub : xreal) (d wav : list xreal) :
  forall np onl rn np' onl' rn',
    table_loop coh_tmm self n_func n_Space n_Sub d wav (np, onl, rn)
    = inr (np', onl', rn') ->
    exists added rs,
      np' = np ++ added /\ rn' = rn ++ rs /\
      length added = length wav /\ length rs = length wav /\
      (wav = [] -> onl' = onl) /\
      forall i, (i < length wav)%nat ->
        exists n nl,
          n_func (nth i wav NaN) = inr n /\
          make_n_list self n n_Space n_Sub = inr (nth i added [], nl) /\
          coh_tmm s_pol nl d (Fin 0) (nth i wav NaN) = inr (nth i rs NaN).
Proof.
  induction wav as [| Lambda wav IH]; intros np onl rn np' onl' rn' H.
  - simpl in H. injection H as <- <- <-.
    exists [], []. rewrite !app_nil_r.
    repeat split; try reflexivity. intros i Hi. simpl in Hi. lia.
  - simpl in H.
    destruct (n_func Lambda) as [e | n] eqn:En; simpl in H; [discriminate |].
    destruct (make_n_list self n n_Space n_Sub) as [e | [n_Por nl]] eqn:Em;
      simpl in H; [discriminate |].
    destruct (coh_tmm s_pol nl d (Fin 0) Lambda) as [e | r] eqn:Er;
      simpl in H; [discriminate |].
    destruct (IH _ _ _ _ _ _ H) as (added & rs & -> & -> & La & Lr & _ & Hp).
    exists (n_Por :: added), (r :: rs).
    rewrite <- !app_assoc. simpl.
    repeat split; try reflexivity; try lia; try discriminate.
    intros [| i] Hi.
    + exists n, nl. repeat split; assumption.
    + apply Hp. lia.
Qed.

(** A run of the table branch that returns has read the table, built the
    interpolation and the grid, and stored the grid, the thickness list,
    one reflectance per grid wavelength and the file name; it has appended
    one list of graded indices per grid wavelength to [self.nPor] (the log
    grows from run to run) and left the profile as it was.  Each
    reflectance is the solver's answer on the index list rebuilt from the
    index interpolated at its wavelength.  The argument [n] plays no part
    in this branch. *)
Theorem Simulate_table_run (self self' : DBR) (n_Sub n_Space n : xreal)
    (f : string) :
  Simulate coh_tmm loadtxt interp1d self n_Sub n_Space (Some f) n
  = inr self' ->
  (forall n2,
     Simulate coh_tmm loadtxt interp1d self n_Sub n_Space (Some f) n2
     = inr self') /\
  exists data n_func wav d rn added,
    loadtxt (f ++ ".csv")%string = inr data /\
    interp1d (to_nm (map fst data)) (map snd data) = inr n_func /\
    table_grid (to_nm (map fst data)) = inr wav /\
    make_d_list self = inr d /\
    Wav self' = Some wav /\ d_list self' = Some d /\
    Rnorm self' = Some rn /\ n_File self' = Some f /\
    nPor self' = nPor self ++ added /\
    length rn = length wav /\ length added = length wav /\
    Por_Graded self' = Por_Graded self /\ T_Graded self' = T_Graded self /\
    forall i, (i < length wav)%nat ->
      exists m nl,
        n_func (nth i wav NaN) = inr m /\
        make_n_list self m n_Space n_Sub = inr (nth i added [], nl) /\
        coh_tmm s_pol nl d (Fin 0) (nth i wav NaN) = inr (nth i rn NaN).
Proof.
  intros H. split; [intros n2; exact H |].
  revert H. unfold Simulate.
  destruct (loadtxt (f ++ ".csv")) as [e | data] eqn:E1; simpl;
    [discriminate |].
  destruct (interp1d _ _) as [e | n_func] eqn:E2; simpl; [discriminate |].
  destruct (table_grid _) as [e | wav] eqn:E3; simpl; [discriminate |].
  destruct (make_d_list self) as [e | d] eqn:E4; simpl; [discriminate |].
  destruct (table_loop _ _ _ _ _ _ _ _) as [e | [[np' onl'] rn']] eqn:El;
    simpl; [discriminate |].
  intros [= <-].
  destruct (table_loop_spec _ _ _ _ _ _ _ _ _ _ _ _ El)
    as (added & rs & -> & Ers & La & Lr & _ & Hp).
  simpl in Ers. subst rn'.
  exists data, n_func, wav, d, rs, added.
  split; [reflexivity |]. split; [exact E2 |]. split; [exact E3 |].
  do 6 (split; [reflexivity |]).
  split; [assumption |]. split; [assumption |].
  split; [reflexivity |]. split; [reflexivity | exact Hp].
Qed.

(** The loop completes when the interpolation and the solver return. *)
Lemma table_loop_total (self : DBR) (pg : list xreal)
    (n_func : xreal -> result xreal) (n_Space n_Sub : xreal)
    (d wav : list xreal) :
  Por_Graded self = Some pg ->
  (forall Lambda, exists m, n_func Lambda = inr m) ->
  (forall nl Lambda, exists r, coh_tmm s_pol nl d (Fin 0) Lambda = inr r) ->
  forall st, exists st',
    table_loop coh_tmm self n_func n_Space n_Sub d wav st = inr st'.
Proof.
  intros Hpg Hn Hs. induction wav as [| Lambda wav IH]; intros st.
  - now exists st.
  - destruct st as [[np onl] rn]. simpl.
    destruct (Hn Lambda) as [m ->]. simpl.
    rewrite (make_n_list_eq _ _ _ _ _ Hpg). simpl.
    match goal with
    | |- context [coh_tmm s_pol ?nl d (Fin 0) Lambda] =>
        destruct (Hs nl Lambda) as [r ->]
    end.
    simpl. apply IH.
Qed.

Lemma Simulate_table_returns (self : DBR) (pg tg : list xreal)
    (n_Sub n_Space n : xreal) (f : string) (data : list (xreal * xreal))
    (n_func : xreal -> result xreal) (wav : list xreal) :
  Por_Graded self = Some pg -> T_Graded self = Some tg ->
  loadtxt (f ++ ".csv")%string = inr data ->
  interp1d (to_nm (map fst data)) (map snd data) = inr n_func ->
  table_grid (to_nm (map fst data)) = inr wav ->
  (forall Lambda, exists m, n_func Lambda = inr m) ->
  (forall nl d Lambda, exists r, coh_tmm s_pol nl d (Fin 0) Lambda = inr r) ->
  exists self',
    Simulate coh_tmm loadtxt interp1d self n_Sub n_Space (Some f) n
    = inr self'.
Proof.
  intros Hpg Htg E1 E2 E3 Hn Hs. unfold Simulate.
  rewrite E1. simpl bind. rewrite E2. simpl bind. rewrite E3. simpl bind.
  rewrite (make_d_list_eq _ _ Htg). simpl bind.
  match goal with
  | |- context [table_loop ?c ?s ?nf ?a ?b ?d ?w ?st] =>
      destruct (table_loop_total s pg nf a b d w Hpg Hn (fun nl => Hs nl d)
                  st) as [[[np' onl'] rn'] ->]
  end.
  simpl. eexists. reflexivity.
Qed.

End TableRuns.

Lemma demo_table_grid :
  exists g, table_grid (to_nm (map fst demo_table)) = inr g.
Proof.
  destruct (linspace_spec (Fin (3 / 10 * 1000)) (Fin (7 / 10 * 1000)) 700
              ltac:(lia)) as (g & Eg & _).
  exists g. unfold table_grid, to_nm, demo_table. xcompute. unfold py_min2.
  rewrite !xltb_Fin_false by lra. rewrite xltb_Fin_true by lra.
  xcompute. replace (1000 + - (3 / 10 * 1000)) with (IZR 700) by lra.
  rewrite Rtrunc_IZR by lia. exact Eg.
Qed.

Lemma Simulate_table_run_witness :
  exists self' wav rn added,
    Simulate demo_coh_tmm demo_loadtxt demo_interp1d
             (graded (scenario (Fin (37 / 100)) 12 (Fin 3400)) 3 (Fin 1)
                     (IntOrder 1))
             (Fin (176 / 100)) (Fin 1)
             (Some "GaN_RefractiveIndex_Barker-o"%string) (Fin (238 / 100))
    = inr self' /\
    Wav self' = Some wav /\ Rnorm self' = Some rn /\
    nPor self' = added /\
    length rn = length wav /\ length added = length wav.
Proof.
  destruct demo_table_grid as [g Eg].
  destruct (Simulate_table_returns demo_coh_tmm demo_loadtxt demo_interp1d
              (graded (scenario (Fin (37 / 100)) 12 (Fin 3400)) 3 (Fin 1)
                      (IntOrder 1))
              _ _ (Fin (176 / 100)) (Fin 1) (Fin (238 / 100))
              "GaN_RefractiveIndex_Barker-o" demo_table _ g
              eq_refl eq_refl eq_refl eq_refl Eg
              (fun _ => ex_intro _ _ eq_refl)
              (fun _ _ _ => ex_intro _ _ eq_refl)) as [self' E].
  destruct (Simulate_table_run demo_coh_tmm demo_loadtxt demo_interp1d
              _ self' _ _ _ _ E)
    as (_ & data & nf & wav & d & rn & added & _ & _ & _ & _ & Hw & _
        & Hr & _ & Hn & Lr & La & _).
  exists self', wav, rn, added. repeat split; assumption.
Defined.

(** ** The composite stack *)

Lemma make_n_list_parts_eq (self TopDBR : DBR) (n n_Space n_Sub : xreal)
    (pg pgTop : list xreal) :
  Por_Graded self = Some pg -> Por_Graded TopDBR = Some pgTop ->
  make_n_list_parts self TopDBR n n_Space n_Sub
  = inr (map (fun p => porosity_to_n p n n_Space) pg,
         map (fun p => porosity_to_n p n n_Space) pgTop,
         Fin 1 :: (list_mul (n :: map (fun p => porosity_to_n p n n_Space)
                                      pgTop) (NLayers TopDBR)
                   ++ list_mul (n :: map (fun p => porosity_to_n p n n_Space)
                                         pg) (NLayers self))
               ++ [n; n_Sub]).
Proof.
  intros H HT. unfold make_n_list_parts. rewrite H, HT. simpl.
  now rewrite <- app_assoc.
Qed.

(** Positions in a framed list whose interior is two blocks. *)
Lemma framed2_nth_top {A} (x y z dflt : A) (top bot : list A) (i : nat) :
  (i < length top)%nat ->
  nth (1 + i) (x :: (top ++ bot) ++ [y; z]) dflt = nth i top dflt.
Proof.
  intros H. rewrite framed_nth_interior by (rewrite length_app; lia).
  now apply app_nth1.
Qed.

Lemma framed2_nth_bot {A} (x y z dflt : A) (top bot : list A) (i : nat) :
  (i < length bot)%nat ->
  nth (1 + (length top + i)) (x :: (top ++ bot) ++ [y; z]) dflt
  = nth i bot dflt.
Proof.
  intros H. rewrite framed_nth_interior by (rewrite length_app; lia).
  rewrite app_nth2 by lia. f_equal. lia.
Qed.

(** In the composite stack the two lists stay aligned: they have the same
    length [1 + topRepeats*(1+gTop) + repeats*(1+g) + 2]; the repetitions of
    the top structure come first, then those of [self]; each repetition
    starts with its non-porous entry (the thickness [T_GaN] of its own
    structure, the index [n]); the entry before the substrate is the
    template of [self] with the index [n], whatever the template thickness
    of the top structure. *)
Theorem parts_lists_aligned (self TopDBR : DBR)
    (pg tg pgTop tgTop : list xreal) (n n_Space n_Sub : xreal)
    (g gTop : nat) :
  Por_Graded self = Some pg -> T_Graded self = Some tg ->
  Por_Graded TopDBR = Some pgTop -> T_Graded TopDBR = Some tgTop ->
  length pg = g -> length tg = g ->
  length pgTop = gTop -> length tgTop = gTop ->
  exists d n_Por n_PorTop nl,
    make_d_list_parts self TopDBR = inr d /\
    make_n_list_parts self TopDBR n n_Space n_Sub
    = inr (n_Por, n_PorTop, nl) /\
    length nl = length d /\
    length d = (1 + (Z.to_nat (NLayers TopDBR) * (1 + gTop)
                     + Z.to_nat (NLayers self) * (1 + g)) + 2)%nat /\
    (forall r, (r < Z.to_nat (NLayers TopDBR))%nat ->
       nth (1 + r * (1 + gTop)) d NaN = T_GaN TopDBR /\
       nth (1 + r * (1 + gTop)) nl NaN = n) /\
    (forall r, (r < Z.to_nat (NLayers self))%nat ->
       nth (1 + (Z.to_nat (NLayers TopDBR) * (1 + gTop) + r * (1 + g)))
           d NaN = T_GaN self /\
       nth (1 + (Z.to_nat (NLayers TopDBR) * (1 + gTop) + r * (1 + g)))
           nl NaN = n) /\
    nth (length d - 2) d NaN = T_Temp self /\
    nth (length nl - 2) nl NaN = n.
Proof.
  intros Hpg Htg HpgT HtgT Lpg Ltg LpgT LtgT.
  rewrite (make_d_list_parts_eq _ _ _ _ Htg HtgT).
  rewrite (make_n_list_parts_eq _ _ _ _ _ _ _ Hpg HpgT).
  set (np := map (fun p => porosity_to_n p n n_Space) pg).
  set (npT := map (fun p => porosity_to_n p n n_Space) pgTop).
  assert (Ld : length (T_GaN self :: tg) = (1 + g)%nat) by (simpl; lia).
  assert (LdT : length (T_GaN TopDBR :: tgTop) = (1 + gTop)%nat)
    by (simpl; lia).
  assert (Ln : length (n :: np) = (1 + g)%nat)
    by (unfold np; simpl; rewrite length_map; lia).
  assert (LnT : length (n :: npT) = (1 + gTop)%nat)
    by (unfold npT; simpl; rewrite length_map; lia).
  set (dT := list_mul (T_GaN TopDBR :: tgTop) (NLayers TopDBR)).
  set (dB := list_mul (T_GaN self :: tg) (NLayers self)).
  set (nT := list_mul (n :: npT) (NLayers TopDBR)).
  set (nB := list_mul (n :: np) (NLayers self)).
  assert (LdT' : length dT
                 = (Z.to_nat (NLayers TopDBR) * (1 + gTop))%nat)
    by (unfold dT; now rewrite list_mul_length, LdT).
  assert (LdB' : length dB = (Z.to_nat (NLayers self) * (1 + g))%nat)
    by (unfold dB; now rewrite list_mul_length, Ld).
  assert (LnT' : length nT
                 = (Z.to_nat (NLayers TopDBR) * (1 + gTop))%nat)
    by (unfold nT; now rewrite list_mul_length, LnT).
  assert (LnB' : length nB = (Z.to_nat (NLayers self) * (1 + g))%nat)
    by (unfold nB; now rewrite list_mul_length, Ln).
  eexists _, _, _, _. split; [reflexivity |]. split; [reflexivity |].
  assert (Lfd : length (PInf :: (dT ++ dB) ++ [T_Temp self; PInf])
                = (1 + (Z.to_nat (NLayers TopDBR) * (1 + gTop)
                        + Z.to_nat (NLayers self) * (1 + g)) + 2)%nat)
    by (rewrite framed_length, length_app, LdT', LdB'; reflexivity).
  assert (Lfn : length (Fin 1 :: (nT ++ nB) ++ [n; n_Sub])
                = (1 + (Z.to_nat (NLayers TopDBR) * (1 + gTop)
                        + Z.to_nat (NLayers self) * (1 + g)) + 2)%nat)
    by (rewrite framed_length, length_app, LnT', LnB'; reflexivity).
  split; [congruence |]. split; [exact Lfd |].
  split; [| split; [| split]].
  - intros r Hr. split.
    + rewrite framed2_nth_top by (rewrite LdT'; nia).
      unfold dT. replace (r * (1 + gTop))%nat
        with (r * length (T_GaN TopDBR :: tgTop) + 0)%nat by (rewrite LdT; lia).
      rewrite list_mul_nth by (assumption || (simpl; lia)). reflexivity.
    + rewrite framed2_nth_top by (rewrite LnT'; nia).
      unfold nT. replace (r * (1 + gTop))%nat
        with (r * length (n :: npT) + 0)%nat by (rewrite LnT; lia).
      rewrite list_mul_nth by (assumption || (simpl; lia)). reflexivity.
  - intros r Hr. split.
    + rewrite <- LdT'. rewrite framed2_nth_bot by (rewrite LdB'; nia).
      unfold dB. replace (r * (1 + g))%nat
        with (r * length (T_GaN self :: tg) + 0)%nat by (rewrite Ld; lia).
      rewrite list_mul_nth by (assumption || (simpl; lia)). reflexivity.
    + rewrite <- LnT'. rewrite framed2_nth_bot by (rewrite LnB'; nia).
      unfold nB. replace (r * (1 + g))%nat
        with (r * length (n :: np) + 0)%nat by (rewrite Ln; lia).
      rewrite list_mul_nth by (assumption || (simpl; lia)). reflexivity.
  - destruct (framed_nth_tail PInf (T_Temp self) PInf NaN (dT ++ dB))
      as [Hy _].
    rewrite framed_length.
    replace (1 + length (dT ++ dB) + 2 - 2)%nat
      with (1 + length (dT ++ dB))%nat by lia.
    exact Hy.
  - destruct (framed_nth_tail (Fin 1) n n_Sub NaN (nT ++ nB)) as [Hy _].
    rewrite framed_length.
    replace (1 + length (nT ++ nB) + 2 - 2)%nat
      with (1 + length (nT ++ nB))%nat by lia.
    exact Hy.
Qed.

Lemma parts_lists_aligned_witness :
  exists d n_Por n_PorTop nl,
    make_d_list_parts
      (graded (scenario (Fin (37 / 100)) 7 (Fin 3400)) 3 (Fin 1)
              (IntOrder 1))
      (graded (scenario (Fin (655 / 1000)) 5 (Fin 0)) 3 (Fin 1)
              (IntOrder 1)) = inr d /\
    make_n_list_parts
      (graded (scenario (Fin (37 / 100)) 7 (Fin 3400)) 3 (Fin 1)
              (IntOrder 1))
      (graded (scenario (Fin (655 / 1000)) 5 (Fin 0)) 3 (Fin 1)
              (IntOrder 1))
      (Fin (238 / 100)) (Fin 1) (Fin (176 / 100))
    = inr (n_Por, n_PorTop, nl) /\
    length nl = length d /\ length d = 51%nat /\
    nth (length d - 2) d NaN = Fin 3400.
Proof.
  destruct (parts_lists_aligned
              (graded (scenario (Fin (37 / 100)) 7 (Fin 3400)) 3 (Fin 1)
                      (IntOrder 1))
              (graded (scenario (Fin (655 / 1000)) 5 (Fin 0)) 3 (Fin 1)
                      (IntOrder 1))
              _ _ _ _ (Fin (238 / 100)) (Fin 1) (Fin (176 / 100)) 3 3
              eq_refl eq_refl eq_refl eq_refl eq_refl eq_refl eq_refl
              eq_refl)
    as (d & n_Por & n_PorTop & nl & Hd & Hn & HL & Hlen & _ & _ & Ht & _).
  exists d, n_Por, n_PorTop, nl. repeat split; assumption.
Defined.

(** *** Splitting a structure in two *)

Lemma list_mul_add {A} (l : list A) (a b : Z) :
  (0 <= a)%Z -> (0 <= b)%Z ->
  list_mul l a ++ list_mul l b = list_mul l (a + b).
Proof.
  intros Ha Hb. unfold list_mul.
  rewrite Z2Nat.inj_add by assumption.
  now rewrite repeat_app, concat_app.
Qed.

Lemma make_d_list_parts_whole (bot top whole : DBR) (tg : list xreal) :
  T_Graded bot = Some tg -> T_Graded top = Some tg ->
  T_Graded whole = Some tg ->
  T_GaN top = T_GaN bot -> T_GaN whole = T_GaN bot ->
  T_Temp whole = T_Temp bot ->
  (0 <= NLayers top)%Z -> (0 <= NLayers bot)%Z ->
  NLayers whole = (NLayers top + NLayers bot)%Z ->
  make_d_list_parts bot top = make_d_list whole.
Proof.
  intros Hb Ht Hw Gt Gw TT Ha Hbn HN.
  rewrite (make_d_list_parts_eq _ _ _ _ Hb Ht), (make_d_list_eq _ _ Hw).
  rewrite Gt, Gw, TT, HN, list_mul_add by assumption. reflexivity.
Qed.

Lemma make_n_list_parts_whole (bot top whole : DBR) (pg : list xreal)
    (n n_Space n_Sub : xreal) :
  Por_Graded bot = Some pg -> Por_Graded top = Some pg ->
  Por_Graded whole = Some pg ->
  (0 <= NLayers top)%Z -> (0 <= NLayers bot)%Z ->
  NLayers whole = (NLayers top + NLayers bot)%Z ->
  make_n_list_parts bot top n n_Space n_Sub
  = (pn <- make_n_list whole n n_Space n_Sub ;;
     ret (fst pn, fst pn, snd pn)).
Proof.
  intros Hb Ht Hw Ha Hbn HN.
  rewrite (make_n_list_parts_eq _ _ _ _ _ _ _ Hb Ht).
  rewrite (make_n_list_eq _ _ _ _ _ Hw). simpl.
  rewrite HN, list_mul_add by assumption. reflexivity.
Qed.

(** The thickness list does not see the porosity.  Three objects built
    with the same period and thickness ratio and graded with the same grade
    count, whatever their porosities, factors and exponents: a bottom with
    [b] repeats run through [SimulateParts] under a top with [a] repeats has
    the thickness list of the whole with [a + b] repeats and the bottom's
    template (the configuration of the example script, [7 + 5 = 12]). *)
Theorem split_thickness_list (l1 l2 l3 p1 p2 p3 : string)
    (Period0 T_Rat0 Phib Phit Phiw : xreal) (a b : Z) (TT TTtop : xreal)
    (N : Z) (Fb Ft Fw : xreal) (Ob Ot Ow : exponent) (Pb Pt Pw : xreal)
    (bot top whole : DBR) :
  (0 <= a)%Z -> (0 <= b)%Z ->
  MakeGrades (DBR_init l1 p1 Period0 T_Rat0 Phib b TT) N Fb Ob Pb
  = inr bot ->
  MakeGrades (DBR_init l2 p2 Period0 T_Rat0 Phit a TTtop) N Ft Ot Pt
  = inr top ->
  MakeGrades (DBR_init l3 p3 Period0 T_Rat0 Phiw (a + b) TT) N Fw Ow Pw
  = inr whole ->
  exists d, make_d_list_parts bot top = inr d /\ make_d_list whole = inr d.
Proof.
  intros Ha Hb Eb Et Ew.
  apply MakeGrades_inv in Eb as (_ & _ & rb & _ & _ & ->).
  apply MakeGrades_inv in Et as (_ & _ & rt & _ & _ & ->).
  apply MakeGrades_inv in Ew as (_ & _ & rw & _ & _ & ->).
  eexists. split; [| apply make_d_list_eq; reflexivity].
  erewrite make_d_list_parts_whole;
    [apply make_d_list_eq; reflexivity | reflexivity .. | | | ];
    simpl; try assumption; reflexivity.
Qed.

Lemma split_thickness_list_witness :
  exists d,
    make_d_list_parts
      (graded (scenario (Fin (4 / 10)) 7 (Fin 3400)) 3 (Fin 1) (IntOrder 1))
      (graded (scenario (Fin (655 / 1000)) 5 (Fin 0)) 3 (Fin 1)
              (IntOrder 1)) = inr d /\
    make_d_list
      (graded (scenario (Fin (4 / 10)) 12 (Fin 3400)) 3 (Fin 1) (IntOrder 1))
    = inr d.
Proof.
  apply (split_thickness_list "All_45" "All_45" "All_45" "Polarisation/"
           "Polarisation/" "Polarisation/" (Fin (973 / 10))
           (Fin (345 / 1000)) (Fin (4 / 10)) (Fin (655 / 1000))
           (Fin (4 / 10)) 5 7 (Fin 3400) (Fin 0) 3 (Fin 1) (Fin 1) (Fin 1)
           (IntOrder 1) (IntOrder 1) (IntOrder 1) (Fin (4 / 10))
           (Fin (655 / 1000)) (Fin (4 / 10)));
    [lia | lia | reflexivity | reflexivity | reflexivity].
Defined.

Section Split.

Variable coh_tmm :
  polarization -> list xreal -> list xreal -> xreal -> xreal -> result xreal.
Variable loadtxt : string -> result (list (xreal * xreal)).
Variable interp1d :
  list xreal -> list xreal -> result (xreal -> result xreal).

Lemma table_loop_parts_whole (bot top whole : DBR)
    (n_func : xreal -> result xreal) (n_Space n_Sub : xreal)
    (d wav : list xreal) :
  (forall m, make_n_list_parts bot top m n_Space n_Sub
             = (pn <- make_n_list whole m n_Space n_Sub ;;
                ret (fst pn, fst pn, snd pn))) ->
  forall np npTop np2 nl rn,
    (st <- table_loop_parts coh_tmm bot top n_func n_Space n_Sub d wav
             (np, npTop, nl, rn) ;;
     ret (loop_out4 st))
    = (st <- table_loop coh_tmm whole n_func n_Space n_Sub d wav
               (np2, nl, rn) ;;
       ret (loop_out3 st)).
Proof.
  intros Hn. induction wav as [| Lambda wav IH]; intros np npTop np2 nl rn.
  - reflexivity.
  - simpl table_loop_parts. simpl table_loop.
    destruct (n_func Lambda) as [e | m]; simpl; [reflexivity |].
    rewrite Hn.
    destruct (make_n_list whole m n_Space n_Sub) as [e | [n_Por nl']];
      simpl; [reflexivity |].
    destruct (coh_tmm s_pol nl' d (Fin 0) Lambda) as [e | r]; simpl;
      [reflexivity |].
    apply IH.
Qed.

(** A structure may be simulated in two parts.  When the bottom with [b]
    repeats, the top with [a] repeats and the whole with [a + b] repeats
    are built and graded with the same parameters (the template of the top
    aside), [SimulateParts] on the bottom under the top raises what
    [Simulate] on the whole raises, or leaves the same wavelengths,
    thickness list, index list and reflectances, in both branches. *)
Theorem SimulateParts_split (l1 l2 l3 p1 p2 p3 : string)
    (Period0 T_Rat0 Phi0 : xreal) (a b : Z) (TT TTtop : xreal)
    (N : Z) (Factor : xreal) (Order : exponent) (Pb Pt Pw : xreal)
    (bot top whole : DBR) (n_Sub n_Space : xreal) (file : option string)
    (n : xreal) :
  (0 <= a)%Z -> (0 <= b)%Z ->
  MakeGrades (DBR_init l1 p1 Period0 T_Rat0 Phi0 b TT) N Factor Order Pb
  = inr bot ->
  MakeGrades (DBR_init l2 p2 Period0 T_Rat0 Phi0 a TTtop) N Factor Order Pt
  = inr top ->
  MakeGrades (DBR_init l3 p3 Period0 T_Rat0 Phi0 (a + b) TT) N Factor Order
             Pw = inr whole ->
  (st <- SimulateParts coh_tmm loadtxt interp1d bot n_Sub n_Space file
           top n ;;
   ret (observables (fst st)))
  = (s <- Simulate coh_tmm loadtxt interp1d whole n_Sub n_Space file n ;;
     ret (observables s)).
Proof.
  intros Ha Hb Eb Et Ew.
  apply MakeGrades_inv in Eb as (_ & _ & rb & Erb & _ & ->).
  apply MakeGrades_inv in Et as (_ & _ & rt & Ert & _ & ->).
  apply MakeGrades_inv in Ew as (_ & _ & rw & Erw & _ & ->).
  assert (rt = rb) as -> by congruence.
  assert (rw = rb) as -> by congruence.
  set (B := set_grades (DBR_init l1 p1 Period0 T_Rat0 Phi0 b TT) _ _).
  set (T := set_grades (DBR_init l2 p2 Period0 T_Rat0 Phi0 a TTtop) _ _).
  set (W := set_grades (DBR_init l3 p3 Period0 T_Rat0 Phi0 (a + b) TT) _ _).
  assert (Ed : make_d_list_parts B T = make_d_list W).
  { eapply make_d_list_parts_whole; try reflexivity; assumption. }
  assert (En : forall m, make_n_list_parts B T m n_Space n_Sub
                         = (pn <- make_n_list W m n_Space n_Sub ;;
                            ret (fst pn, fst pn, snd pn))).
  { intros m. eapply make_n_list_parts_whole; try reflexivity; assumption. }
  assert (Hnl : n_list W = n_list B) by reflexivity.
  clearbody B T W.
  unfold SimulateParts, Simulate. destruct file as [f |].
  - destruct (loadtxt (f ++ ".csv")) as [e | data]; simpl; [reflexivity |].
    destruct (interp1d _ _) as [e | n_func]; simpl; [reflexivity |].
    destruct (table_grid _) as [e | wav]; simpl; [reflexivity |].
    rewrite Ed.
    destruct (make_d_list W) as [e | d]; simpl; [reflexivity |].
    pose proof (table_loop_parts_whole B T W n_func n_Space n_Sub d wav En
                  (nPor B) (nPor T) (nPor W) (n_list B) []) as Hl.
    rewrite Hnl.
    destruct (table_loop_parts _ _ _ _ _ _ _ _ _)
      as [e | [[[np npTop] nl] rn]];
      destruct (table_loop _ _ _ _ _ _ _ _) as [e' | [[np2 nl2] rn2]];
      simpl in Hl; try discriminate Hl.
    + injection Hl as ->. reflexivity.
    + injection Hl as -> ->. reflexivity.
  - destruct (linspace (Fin 200) (Fin 1000) 800) as [e | wav]; simpl;
      [reflexivity |].
    rewrite Ed.
    destruct (make_d_list W) as [e | d]; simpl; [reflexivity |].
    rewrite En.
    destruct (make_n_list W n n_Space n_Sub) as [e | [n_Por nl]];
      simpl; [reflexivity |].
    destruct (const_loop coh_tmm nl d wav) as [e | rn]; reflexivity.
Qed.

End Split.

Lemma SimulateParts_split_witness :
  (st <- SimulateParts demo_coh_tmm demo_loadtxt demo_interp1d
           (graded (scenario (Fin (4 / 10)) 7 (Fin 3400)) 3 (Fin 1)
                   (IntOrder 1))
           (Fin (176 / 100)) (Fin 1) None
           (graded (scenario (Fin (4 / 10)) 5 (Fin 0)) 3 (Fin 1)
                   (IntOrder 1))
           (Fin (238 / 100)) ;;
   ret (observables (fst st)))
  = (s <- Simulate demo_coh_tmm demo_loadtxt demo_interp1d
            (graded (scenario (Fin (4 / 10)) 12 (Fin 3400)) 3 (Fin 1)
                    (IntOrder 1))
            (Fin (176 / 100)) (Fin 1) None (Fin (238 / 100)) ;;
     ret (observables s)).
Proof.
  apply (SimulateParts_split demo_coh_tmm demo_loadtxt demo_interp1d
           "All_45" "All_45" "All_45" "Polarisation/" "Polarisation/"
           "Polarisation/" (Fin (973 / 10)) (Fin (345 / 1000))
           (Fin (4 / 10)) 5 7 (Fin 3400) (Fin 0) 3 (Fin 1) (IntOrder 1)
           (Fin (4 / 10)) (Fin (4 / 10)) (Fin (4 / 10)));
    [lia | lia | reflexivity | reflexivity | reflexivity].
Defined.

(** ** What a run changes *)

Section Frames.

Variable coh_tmm :
  polarization -> list xreal -> list xreal -> xreal -> xreal -> result xreal.
Variable loadtxt : string -> result (list (xreal * xreal)).
Variable interp1d :
  list xreal -> list xreal -> result (xreal -> result xreal).

Lemma table_loop_parts_log (self TopDBR : DBR)
    (n_func : xreal -> result xreal) (n_Space n_Sub : xreal)
    (d wav : list xreal) :
  forall np npTop onl rn np' npTop' onl' rn',
    table_loop_parts coh_tmm self TopDBR n_func n_Space n_Sub d wav
                     (np, npTop, onl, rn) = inr (np', npTop', onl', rn') ->
    exists added addedTop,
      np' = np ++ added /\ npTop' = npTop ++ addedTop /\
      length added = length wav /\ length addedTop = length wav.
Proof.
  induction wav as [| Lambda wav IH];
    intros np npTop onl rn np' npTop' onl' rn' H.
  - simpl in H. injection H as <- <- <- <-.
    exists [], []. now rewrite !app_nil_r.
  - simpl in H.
    destruct (n_func Lambda) as [e | n]; simpl in H; [discriminate |].
    destruct (make_n_list_parts self TopDBR n n_Space n_Sub)
      as [e | [[n_Por n_PorTop] nl]]; simpl in H; [discriminate |].
    destruct (coh_tmm s_pol nl d (Fin 0) Lambda) as [e | r];
      simpl in H; [discriminate |].
    destruct (IH _ _ _ _ _ _ _ _ H) as (added & addedTop & -> & -> & La & Lt).
    exists (n_Por :: added), (n_PorTop :: addedTop).
    rewrite <- !app_assoc. simpl. repeat split; lia.
Qed.

(** [SimulateParts] stores its results on [self]; of the top structure it
    changes nothing but the log [nPor], to which the table branch appends
    one list of graded indices per grid wavelength, as it does for [self];
    the constant-index branch leaves both logs alone.  Neither structure's
    profile, thicknesses, porosity, repeat count or template is changed. *)
Theorem SimulateParts_frame (self TopDBR self' top' : DBR)
    (n_Sub n_Space n : xreal) (file : option string) :
  SimulateParts coh_tmm loadtxt interp1d self n_Sub n_Space file TopDBR n
  = inr (self', top') ->
  exists wav added addedTop,
    Wav self' = Some wav /\
    top' = set_nPor TopDBR (nPor TopDBR ++ addedTop) /\
    nPor self' = nPor self ++ added /\
    (file = None -> added = [] /\ addedTop = [] /\ top' = TopDBR) /\
    (file <> None ->
     length added = length wav /\ length addedTop = length wav) /\
    (Period self', T_Rat self', T_Por self', T_GaN self', Phi self',
     NLayers self', T_Temp self', Por_Graded self', T_Graded self')
    = (Period self, T_Rat self, T_Por self, T_GaN self, Phi self,
       NLayers self, T_Temp self, Por_Graded self, T_Graded self).
Proof.
  unfold SimulateParts. destruct file as [f |].
  - destruct (loadtxt (f ++ ".csv")) as [e | data]; simpl; [discriminate |].
    destruct (interp1d _ _) as [e | n_func]; simpl; [discriminate |].
    destruct (table_grid _) as [e | wav]; simpl; [discriminate |].
    destruct (make_d_list_parts self TopDBR) as [e | d]; simpl;
      [discriminate |].
    destruct (table_loop_parts _ _ _ _ _ _ _ _ _)
      as [e | [[[np' npTop'] onl'] rn']] eqn:El; simpl; [discriminate |].
    intros [= <- <-].
    destruct (table_loop_parts_log _ _ _ _ _ _ _ _ _ _ _ _ _ _ _ El)
      as (added & addedTop & -> & -> & La & Lt).
    exists wav, added, addedTop.
    split; [reflexivity |]. split; [reflexivity |]. split; [reflexivity |].
    split; [discriminate |]. split; [now split | reflexivity].
  - destruct (linspace (Fin 200) (Fin 1000) 800) as [e | wav]; simpl;
      [discriminate |].
    destruct (make_d_list_parts self TopDBR) as [e | d]; simpl;
      [discriminate |].
    destruct (make_n_list_parts self TopDBR n n_Space n_Sub)
      as [e | [[n_Por n_PorTop] nl]]; simpl; [discriminate |].
    destruct (const_loop coh_tmm nl d wav) as [e | rn]; simpl;
      [discriminate |].
    intros [= <- <-]. exists wav, [], [].
    split; [reflexivity |].
    split; [rewrite app_nil_r; now destruct TopDBR |].
    split; [simpl; now rewrite app_nil_r |].
    split; [now repeat split |].
    split; [congruence | reflexivity].
Qed.

(** A constant-index run can be repeated: running [Simulate] again on the
    object it returned, with the same arguments, returns that object
    unchanged. *)
Theorem Simulate_constant_again (self s1 : DBR) (n_Sub n_Space n : xreal) :
  Simulate coh_tmm loadtxt interp1d self n_Sub n_Space None n = inr s1 ->
  Simulate coh_tmm loadtxt interp1d s1 n_Sub n_Space None n = inr s1.
Proof.
  unfold Simulate.
  destruct (linspace (Fin 200) (Fin 1000) 800) as [e | wav]; simpl;
    [discriminate |].
  destruct (make_d_list self) as [e | d] eqn:Ed; simpl; [discriminate |].
  destruct (make_n_list self n n_Space n_Sub) as [e | [n_Por nl]] eqn:En;
    simpl; [discriminate |].
  destruct (const_loop coh_tmm nl d wav) as [e | rn] eqn:Er; simpl;
    [discriminate |].
  intros [= <-].
  change (make_d_list (set_sim self (n_File self) wav d (Some nl) rn
                               (nPor self)))
    with (make_d_list self).
  rewrite Ed. simpl.
  change (make_n_list (set_sim self (n_File self) wav d (Some nl) rn
                               (nPor self)) n n_Space n_Sub)
    with (make_n_list self n n_Space n_Sub).
  rewrite En. simpl. rewrite Er. reflexivity.
Qed.

End Frames.

Lemma SimulateParts_frame_witness :
  exists self' wav,
    SimulateParts demo_coh_tmm demo_loadtxt demo_interp1d
      (graded (scenario (Fin (4 / 10)) 7 (Fin 3400)) 3 (Fin 1) (IntOrder 1))
      (Fin (176 / 100)) (Fin 1) None
      (graded (scenario (Fin (655 / 1000)) 5 (Fin 0)) 3 (Fin 1)
              (IntOrder 1))
      (Fin (238 / 100))
    = inr (self',
           graded (scenario (Fin (655 / 1000)) 5 (Fin 0)) 3 (Fin 1)
                  (IntOrder 1)) /\
    Wav self' = Some wav /\
    nPor self' = [].
Proof.
  destruct (SimulateParts demo_coh_tmm demo_loadtxt demo_interp1d
      (graded (scenario (Fin (4 / 10)) 7 (Fin 3400)) 3 (Fin 1) (IntOrder 1))
      (Fin (176 / 100)) (Fin 1) None
      (graded (scenario (Fin (655 / 1000)) 5 (Fin 0)) 3 (Fin 1)
              (IntOrder 1))
      (Fin (238 / 100))) as [e | [self' top']] eqn:E.
  - exfalso. revert E. unfold SimulateParts.
    destruct (linspace_spec (Fin 200) (Fin 1000) 800 ltac:(lia))
      as (wav & -> & _).
    simpl bind. unfold const_loop.
    match goal with
    | |- context [mapM ?f wav] =>
        destruct (mapM_total f wav) as [rn ->];
          [intros a _; eexists; reflexivity |]
    end.
    discriminate.
  - destruct (SimulateParts_frame demo_coh_tmm demo_loadtxt demo_interp1d
                _ _ self' top' _ _ _ _ E)
      as (wav & added & addedTop & Hw & _ & Hn & Hnone & _).
    destruct (Hnone eq_refl) as (-> & _ & ->).
    exists self', wav. repeat split; assumption.
Defined.

Lemma demo_constant_run :
  exists s1,
    Simulate demo_coh_tmm demo_loadtxt demo_interp1d
             (graded (scenario (Fin (37 / 100)) 12 (Fin 3400)) 3 (Fin 1)
                     (IntOrder 1))
             (Fin (176 / 100)) (Fin 1) None (Fin (238 / 100)) = inr s1.
Proof.
  unfold Simulate.
  destruct (linspace_spec (Fin 200) (Fin 1000) 800 ltac:(lia))
    as (wav & -> & _).
  simpl bind. unfold const_loop.
  match goal with
  | |- context [mapM ?f wav] =>
      destruct (mapM_total f wav) as [rn ->];
        [intros a _; eexists; reflexivity |]
  end.
  eexists. reflexivity.
Qed.

Lemma Simulate_constant_again_witness :
  exists s1,
    Simulate demo_coh_tmm demo_loadtxt demo_interp1d
             (graded (scenario (Fin (37 / 100)) 12 (Fin 3400)) 3 (Fin 1)
                     (IntOrder 1))
             (Fin (176 / 100)) (Fin 1) None (Fin (238 / 100)) = inr s1 /\
    Simulate demo_coh_tmm demo_loadtxt demo_interp1d s1
             (Fin (176 / 100)) (Fin 1) None (Fin (238 / 100)) = inr s1.
Proof.
  destruct demo_constant_run as [s1 E].
  exists s1. split; [exact E |].
  apply (Simulate_constant_again demo_coh_tmm demo_loadtxt demo_interp1d
           _ s1 _ _ _ E).
Defined.
